(** * history-tools: the RocksDB key codec and the wasm-ql query engine

    A shallow embedding of [src/state_history_kv.hpp] (namespace
    [state_history::kv]) and of [rocksdb_query_session] in
    [src/wasm_ql_rocksdb_plugin.cpp], with the properties of the key
    encoding, of the catalog preparation and of [query_database].

    Conventions of the embedding:
    - a [std::vector<char>] and an [abieos::input_buffer] are lists of
      bytes; an input buffer is the list of the bytes from [pos] to [end];
    - an unsigned scalar is an [N]; fixed-width arithmetic is written out
      ([N.lnot _ 32], [mod 2 ^ 32]);
    - a function that appends to a vector passed by reference and may throw
      is a computation [M A]: it maps the vector to an [outcome] that keeps
      the vector as the call left it, also when the call throws. *)

From Stdlib Require Import String Ascii.
From Stdlib Require Import NArith List Lia Bool Arith.
From Stdlib Require Import Init.Byte.
Import ListNotations.
Local Open Scope N_scope.

(** ** Bytes *)

Definition bytes := list byte.

(** Modelled from the spec: the comparator of the ordered store, which is
    not part of the sources ("byte-lexicographic order"): unsigned bytes,
    the first difference decides, a proper prefix sorts first. *)
Fixpoint bytewise_cmp (a b : bytes) : comparison :=
  match a, b with
  | [], [] => Eq
  | [], _ :: _ => Lt
  | _ :: _, [] => Gt
  | x :: a', y :: b' =>
      match Byte.to_N x ?= Byte.to_N y with
      | Eq => bytewise_cmp a' b'
      | c => c
      end
  end.

(** Conversion of an integer to [char]: the low eight bits. *)
Definition to_char (n : N) : byte :=
  match Byte.of_N (n mod 256) with
  | Some b => b
  | None => x00
  end.

(** The value of a byte string read as a big-endian number. *)
Fixpoint be_value (bs : bytes) : N :=
  match bs with
  | [] => 0
  | b :: r => Byte.to_N b * 256 ^ N.of_nat (length r) + be_value r
  end.

(** ** Exceptions *)

Inductive error : Type :=
| unsupported_key_type                      (* "unsupported key type" *)
| key_deserialization_error                 (* "key deserialization error" *)
| unknown_table (tab_name : string)         (* "query_database: unknown table: ..." *)
| key_has_unknown_position (key_name : string) (* "key ... has unknown position" *)
| key_position_out_of_range                 (* "key position is out of range" *)
| unknown_query (query_name : N)            (* "query_database: unknown query: ..." *)
| query_not_implemented (query_name : N)    (* "query_database: query: ... not implemented" *)
| result_too_big                            (* "query_database: result is too big" *)
| rocksdb_error                             (* thrown by rdb::check *)
| config_error                              (* thrown by query_config::config::prepare *)
| abieos_error.                             (* thrown by the abieos readers *)

Inductive result (A : Type) : Type :=
| Ok (a : A)
| Throw (e : error).
Arguments Ok {A} a.
Arguments Throw {A} e.

(** A call that received [std::vector<char>&]: the vector is returned as the
    call left it, whether it returned or threw. *)
Inductive outcome (A : Type) : Type :=
| Done (a : A) (dest : bytes)
| Threw (e : error) (dest : bytes).
Arguments Done {A} a dest.
Arguments Threw {A} e dest.

Definition M (A : Type) : Type := bytes -> outcome A.

Definition ret {A} (a : A) : M A := fun dest => Done a dest.
Definition throw {A} (e : error) : M A := fun dest => Threw e dest.
Definition bind {A B} (m : M A) (k : A -> M B) : M B :=
  fun dest =>
    match m dest with
    | Done a dest' => k a dest'
    | Threw e dest' => Threw e dest'
    end.
Definition lift {A} (r : result A) : M A :=
  match r with
  | Ok a => ret a
  | Throw e => throw e
  end.

Definition rbind {A B} (r : result A) (k : A -> result B) : result B :=
  match r with
  | Ok a => k a
  | Throw e => Throw e
  end.

(** A vector local to the caller: once the call has thrown it is gone. *)
Definition local {A} (o : outcome A) : result (A * bytes) :=
  match o with
  | Done a dest => Ok (a, dest)
  | Threw e _ => Throw e
  end.

Declare Scope kv_scope.
Delimit Scope kv_scope with kv.
Notation "x <- m ;; k" := (bind m (fun x => k))
  (at level 61, m at next level, right associativity) : kv_scope.
Notation "m ;;; k" := (bind m (fun _ => k))
  (at level 61, right associativity) : kv_scope.
Notation "x <-- r ;; k" := (rbind r (fun x => k))
  (at level 61, r at next level, right associativity) : kv_scope.
Local Open Scope kv_scope.

(** ** The scalar types behind the schema type names

    The C++ types that [abi_type_to_kv_type] instantiates [make_type_for]
    with. *)
Inductive cpp_type : Type :=
| bool_t | varuint32_t
| uint8_t | uint16_t | uint32_t | uint64_t | uint128_t
| int8_t | int16_t | int32_t | int64_t | int128_t
| double_t | float128_t
| name_t | string_t
| time_point_t | time_point_sec_t | block_timestamp_t
| checksum256_t | public_key_t | bytes_t
| transaction_status_t.

Scheme Equality for cpp_type.

(** [std::is_same_v<std::decay_t<T>, U>] *)
Definition is_same_v (T U : cpp_type) : bool := cpp_type_beq T U.

(** [std::is_unsigned_v<T>]: the unsigned arithmetic types, [bool] among
    them.  The 128-bit integers, the abieos structs and the enumeration
    [transaction_status] are not: the source tests [abieos::uint128],
    [abieos::name], [abieos::time_point] by [is_same_v] next to it. *)
Definition is_unsigned_v (T : cpp_type) : bool :=
  match T with
  | bool_t | uint8_t | uint16_t | uint32_t | uint64_t => true
  | _ => false
  end.

(** [std::is_integral_v<T>] *)
Definition is_integral_v (T : cpp_type) : bool :=
  match T with
  | bool_t | uint8_t | uint16_t | uint32_t | uint64_t
  | int8_t | int16_t | int32_t | int64_t => true
  | _ => false
  end.

(** [sizeof(T)].  For the scalar types it is the width of the canonical
    binary form.  For [std::string], [abieos::bytes] and
    [abieos::public_key] (a one-byte key type and 33 bytes of key data)
    the source never evaluates it: every use sits behind a type test that
    they fail; the values given are those of a 64-bit libstdc++ build. *)
Definition sizeof (T : cpp_type) : nat :=
  match T with
  | bool_t | uint8_t | int8_t | transaction_status_t => 1
  | uint16_t | int16_t => 2
  | uint32_t | int32_t | varuint32_t | time_point_sec_t | block_timestamp_t => 4
  | uint64_t | int64_t | double_t | name_t | time_point_t => 8
  | uint128_t | int128_t | float128_t => 16
  | checksum256_t | string_t => 32
  | bytes_t => 24
  | public_key_t => 34
  end.

(** The test that [fixup_key], [bin_to_native_key], [lower_bound_key] and
    [upper_bound_key] all make. *)
Definition key_type_test (T : cpp_type) : bool :=
  is_unsigned_v T || is_same_v T name_t || is_same_v T uint128_t
  || is_same_v T checksum256_t.

(** A value [v] is a value of the scalar type [T]. *)
Definition fits (T : cpp_type) (v : N) : Prop := v < 256 ^ N.of_nat (sizeof T).

(** ** abieos: the canonical binary form

    The abieos library is not part of the sources.  Its readers and writers
    are modelled after the specification: the row payload is "canonical
    little-endian binary per type", an array is "length-prefixed". *)
Module abieos.

(** Modelled from the spec: the canonical form of an unsigned scalar of
    [w] bytes, least significant byte first. *)
Fixpoint le_bytes (w : nat) (v : N) : bytes :=
  match w with
  | O => []
  | S w' => to_char v :: le_bytes w' (v / 256)
  end.

(** Modelled from the spec: the scalar that canonical bytes spell. *)
Fixpoint le_value (bs : bytes) : N :=
  match bs with
  | [] => 0
  | b :: r => Byte.to_N b + 256 * le_value r
  end.

(** Modelled from the spec: [abieos::native_to_bin(bin, obj)] for a scalar
    [obj] of type [T]. *)
Definition native_to_bin (T : cpp_type) (obj : N) : M unit :=
  fun bin => Done tt (bin ++ le_bytes (sizeof T) obj).

(** Modelled from the spec: [abieos::bin_to_native<T>(bin)] for a scalar
    type: the value and the advanced buffer; it throws when the buffer is
    short. *)
Definition bin_to_native (T : cpp_type) (bin : bytes) : result (N * bytes) :=
  if (length bin <? sizeof T)%nat then Throw abieos_error
  else Ok (le_value (firstn (sizeof T) bin), skipn (sizeof T) bin).

(** Modelled from the spec: [abieos::read_raw<T>(bin)]. *)
Definition read_raw := bin_to_native.

(** Modelled from the spec: [abieos::read_varuint32], the reader of a
    "variable-length unsigned": seven bits a byte, least significant group
    first, the high bit marks a continuation; at most five bytes. *)
Fixpoint read_varuint32_from (fuel : nat) (shift : N) (acc : N) (bin : bytes)
  : result (N * bytes) :=
  match fuel with
  | O => Throw abieos_error
  | S fuel' =>
      match bin with
      | [] => Throw abieos_error
      | b :: rest =>
          let acc' := N.lor acc ((N.land (Byte.to_N b) 127 * 2 ^ shift) mod 2 ^ 32) in
          if N.testbit (Byte.to_N b) 7
          then read_varuint32_from fuel' (shift + 7) acc' rest
          else Ok (acc', rest)
      end
  end.

(** Modelled from the spec: [abieos::bin_to_native<varuint32>(bin)]. *)
Definition read_varuint32 (bin : bytes) : result (N * bytes) :=
  read_varuint32_from 5 0 0 bin.

(** Modelled from the spec: the writer of a variable-length unsigned. *)
Fixpoint push_varuint32_from (fuel : nat) (v : N) : bytes :=
  match fuel with
  | O => []
  | S fuel' =>
      if v / 128 =? 0 then [to_char v]
      else to_char (N.lor (v mod 128) 128) :: push_varuint32_from fuel' (v / 128)
  end.

(** Modelled from the spec: [abieos::push_varuint32]. *)
Definition push_varuint32 (v : N) : bytes := push_varuint32_from 5 v.

(** Modelled from the spec: [abieos::native_to_bin(dest,
    abieos::bin_to_native<T>(bin))], which reads one value of [T] and
    appends its canonical form: a variable-length unsigned, a
    length-prefixed string or byte array, or the [sizeof(T)] bytes of a
    scalar. *)
Definition recode (T : cpp_type) (bin : bytes) : M bytes :=
  match T with
  | varuint32_t =>
      r <- lift (read_varuint32 bin) ;;
      fun dest => Done (snd r) (dest ++ push_varuint32 (fst r))
  | string_t | bytes_t =>
      r <- lift (read_varuint32 bin) ;;
      let size := N.to_nat (fst r) in
      if (length (snd r) <? size)%nat then throw abieos_error
      else fun dest =>
             Done (skipn size (snd r))
                  (dest ++ push_varuint32 (fst r) ++ firstn size (snd r))
  | _ =>
      r <- lift (bin_to_native T bin) ;;
      native_to_bin T (fst r) ;;;
      ret (snd r)
  end.

(** Modelled from the spec: [abieos::native_to_bin(rows)], "a
    length-prefixed array of length-prefixed byte-arrays". *)
Definition native_to_bin_rows (rows : list bytes) : bytes :=
  push_varuint32 (N.of_nat (length rows) mod 2 ^ 32)
    ++ concat (map (fun r => push_varuint32 (N.of_nat (length r) mod 2 ^ 32) ++ r) rows).

End abieos.

(** ** state_history::kv: the key codec *)

(** [inc_key]: walk the key from its last byte; [++*it] wraps a byte of
    0xFF to zero, and the walk goes on exactly then. *)
Fixpoint inc_key_from (rkey : bytes) : bytes :=
  match rkey with
  | [] => []
  | c :: rest =>
      let c' := to_char (Byte.to_N c + 1) in
      if Byte.to_N c' =? 0 then c' :: inc_key_from rest else c' :: rest
  end.

Definition inc_key (key : bytes) : bytes := rev (inc_key_from (rev key)).

(** Every byte of the key is 0xFF (so also for the empty key). *)
Definition all_ff (k : bytes) : bool := forallb (fun b => Byte.to_N b =? 255) k.

(** [reverse_bin(bin, f)] *)
Definition reverse_bin {A} (f : M A) : M A :=
  fun bin =>
    let s := length bin in
    match f bin with
    | Done a bin' => Done a (firstn s bin' ++ rev (skipn s bin'))
    | Threw e bin' => Threw e bin'
    end.

(** [fixup_key<T>(bin, f)] *)
Definition fixup_key {A} (T : cpp_type) (f : M A) : M A :=
  if key_type_test T then reverse_bin f
  else throw unsupported_key_type.

(** [native_to_bin_key<T>(bin, obj)] *)
Definition native_to_bin_key (T : cpp_type) (obj : N) : M unit :=
  fixup_key T (abieos.native_to_bin T obj).

(** [bin_to_native_key<T>(b)] *)
Definition bin_to_native_key (T : cpp_type) (b : bytes) : result (N * bytes) :=
  if key_type_test T then
    if (length b <? sizeof T)%nat then Throw key_deserialization_error
    else
      let v := rev (firstn (sizeof T) b) in
      let b' := skipn (sizeof T) b in
      r <-- abieos.bin_to_native T v ;;
      Ok (fst r, b')
  else Throw unsupported_key_type.

(** ** The type registry *)

(** [struct type]: the six function pointers.  The two buffer arguments of
    the first three are the destination vector (the state of [M]) and the
    input buffer, which is passed in and returned advanced. *)
Record type : Type := make_type {
  type_bin_to_bin : bytes -> M bytes;
  type_bin_to_bin_key : bytes -> M bytes;
  type_query_to_bin_key : bytes -> M bytes;
  type_lower_bound_key : M unit;
  type_upper_bound_key : M unit;
  type_get_fixed_size : N
}.

(** [bin_to_bin<T>(dest, bin)], with its specialisations for the 128-bit
    integers (two 64-bit halves) and for [transaction_status] (its
    underlying type). *)
Definition bin_to_bin (T : cpp_type) (bin : bytes) : M bytes :=
  match T with
  | uint128_t | int128_t =>
      bin1 <- abieos.recode uint64_t bin ;;
      abieos.recode uint64_t bin1
  | transaction_status_t => abieos.recode uint8_t bin
  | _ => abieos.recode T bin
  end.

(** [bin_to_bin_key<T>(dest, bin)] *)
Definition bin_to_bin_key (T : cpp_type) (bin : bytes) : M bytes :=
  if is_same_v T varuint32_t then
    reverse_bin
      (r <- lift (abieos.read_varuint32 bin) ;;
       abieos.native_to_bin uint32_t (fst r) ;;;
       ret (snd r))
  else fixup_key T (bin_to_bin T bin).

(** [query_to_bin_key<T>(dest, bin)] *)
Definition query_to_bin_key (T : cpp_type) (bin : bytes) : M bytes :=
  if is_same_v T varuint32_t then fixup_key uint32_t (bin_to_bin uint32_t bin)
  else fixup_key T (bin_to_bin T bin).

(** [lower_bound_key<T>(dest)]: [dest.resize(dest.size() + sizeof(T))] *)
Definition lower_bound_key (T : cpp_type) : M unit :=
  if key_type_test T then fun dest => Done tt (dest ++ repeat x00 (sizeof T))
  else throw unsupported_key_type.

(** [upper_bound_key<T>(dest)]: the same with 0xff bytes. *)
Definition upper_bound_key (T : cpp_type) : M unit :=
  if key_type_test T then fun dest => Done tt (dest ++ repeat xff (sizeof T))
  else throw unsupported_key_type.

(** [get_fixed_size<T>()] *)
Definition get_fixed_size (T : cpp_type) : N :=
  if is_integral_v T || is_same_v T name_t || is_same_v T uint128_t
     || is_same_v T checksum256_t || is_same_v T time_point_t
     || is_same_v T block_timestamp_t
  then N.of_nat (sizeof T)
  else 0.

(** [make_type_for<T>()] *)
Definition make_type_for (T : cpp_type) : type :=
  make_type (bin_to_bin T) (bin_to_bin_key T) (query_to_bin_key T)
            (lower_bound_key T) (upper_bound_key T) (get_fixed_size T).

(** A [std::map] with string keys, read with [find]. *)
Fixpoint find {V} (m : list (string * V)) (k : string) : option V :=
  match m with
  | [] => None
  | (k', v) :: m' => if String.eqb k k' then Some v else find m' k
  end.

Local Open Scope string_scope.

Definition abi_type_to_kv_type : list (string * type) :=
  [ ("bool",                 make_type_for bool_t);
    ("varuint32",            make_type_for varuint32_t);
    ("uint8",                make_type_for uint8_t);
    ("uint16",               make_type_for uint16_t);
    ("uint32",               make_type_for uint32_t);
    ("uint64",               make_type_for uint64_t);
    ("uint128",              make_type_for uint128_t);
    ("int8",                 make_type_for int8_t);
    ("int16",                make_type_for int16_t);
    ("int32",                make_type_for int32_t);
    ("int64",                make_type_for int64_t);
    ("int128",               make_type_for int128_t);
    ("float64",              make_type_for double_t);
    ("float128",             make_type_for float128_t);
    ("name",                 make_type_for name_t);
    ("string",               make_type_for string_t);
    ("time_point",           make_type_for time_point_t);
    ("time_point_sec",       make_type_for time_point_sec_t);
    ("block_timestamp_type", make_type_for block_timestamp_t);
    ("checksum256",          make_type_for checksum256_t);
    ("public_key",           make_type_for public_key_t);
    ("bytes",                make_type_for bytes_t);
    ("transaction_status",   make_type_for transaction_status_t) ].

Local Close Scope string_scope.

(** Modelled from the spec: the literal operator [_n] of abieos, which
    gives the "64-bit packed identifier" of a name of up to twelve
    characters: five bits a character, from the top of the word. *)
Definition char_to_symbol (c : ascii) : N :=
  let n := N_of_ascii c in
  if (97 <=? n) && (n <=? 122) then n - 97 + 6
  else if (49 <=? n) && (n <=? 53) then n - 49 + 1
  else 0.

(** Modelled from the spec: the packing loop of [_n]. *)
Fixpoint string_to_name_from (i : nat) (s : string) : N :=
  match s with
  | EmptyString => 0
  | String c rest =>
      if (i <? 12)%nat
      then N.lor (N.shiftl (N.land (char_to_symbol c) 31) (N.of_nat (64 - 5 * (i + 1))))
                 (string_to_name_from (S i) rest)
      else N.land (char_to_symbol c) 15
  end.

(** Modelled from the spec: ["..."_n]. *)
Definition _n (s : string) : N := string_to_name_from 0 s.

Local Open Scope string_scope.

Definition table_names : list (string * N) :=
  [ ("block_info",                 _n "block.info");
    ("transaction_trace",          _n "ttrace");
    ("action_trace",               _n "atrace");
    ("account",                    _n "account");
    ("account_metadata",           _n "account.meta");
    ("code",                       _n "code");
    ("contract_table",             _n "c.table");
    ("contract_row",               _n "c.row");
    ("contract_index64",           _n "c.index64");
    ("contract_index128",          _n "c.index128");
    ("contract_index256",          _n "c.index128");
    ("contract_index_double",      _n "c.index.d");
    ("contract_index_long_double", _n "c.index.ld");
    ("global_property",            _n "glob.prop");
    ("generated_transaction",      _n "gen.tx");
    ("protocol_state",             _n "protocol.st");
    ("permission",                 _n "permission");
    ("permission_link",            _n "perm.link");
    ("resource_limits",            _n "res.lim");
    ("resource_usage",             _n "res.usage");
    ("resource_limits_state",      _n "res.lim.stat");
    ("resource_limits_config",     _n "res.lim.conf") ].

Local Close Scope string_scope.

(** ** The key space *)

Module key_tag.
Definition fill_status : N := 0x10.
Definition block : N := 0x20.
Definition received_block : N := 0x30.
Definition table_row : N := 0x50.
Definition table_delta : N := 0x60.
Definition table_index : N := 0x70.
Definition table_index_ref : N := 0x80.
End key_tag.

(** [append_table_index_key(dest, table, index)] *)
Definition append_table_index_key (table index : N) : M unit :=
  native_to_bin_key uint8_t key_tag.table_index ;;;
  native_to_bin_key name_t table ;;;
  native_to_bin_key name_t index.

(** [make_table_index_key(table, index)] *)
Definition make_table_index_key (table index : N) : result bytes :=
  r <-- local (append_table_index_key table index []) ;;
  Ok (snd r).

(** [append_table_index_state_suffix(dest, block)] *)
Definition append_table_index_state_suffix_block (block : N) : M unit :=
  native_to_bin_key uint32_t (N.lnot block 32).

(** [append_table_index_state_suffix(dest, block, present)] *)
Definition append_table_index_state_suffix (block : N) (present : bool) : M unit :=
  native_to_bin_key uint32_t (N.lnot block 32) ;;;
  native_to_bin_key bool_t (N.b2n (negb present)).

(** ** The catalog

    [query_config.hpp] is not part of the sources: the records hold the
    members that the two source files read, as the catalog entities of the
    specification name them. *)

(** Modelled from the spec: [defs::field], that is [query_config::field]
    with [byte_position]; [type_obj] is the pointer into the type registry
    that the base class's [prepare] resolved. *)
Record field : Type := make_field {
  field_name : string;
  type_obj : type;
  byte_position : option N
}.

(** Modelled from the spec: [defs::key], that is [query_config::key];
    [key_field] is what [key.field] points to. *)
Record key : Type := make_key {
  key_name : string;
  key_field : field
}.

(** Modelled from the spec: [defs::table], that is [query_config::table]
    with [short_name]. *)
Record table : Type := make_table {
  table_name : string;
  fields : list field;
  short_name : N
}.

(** Modelled from the spec: [defs::query], that is [query_config::query];
    [join_query_is_state] is [join_query->is_state]. *)
Record query : Type := make_query {
  arg_types : list type;
  range_types : list type;
  limit_block_num : bool;
  max_results : N;
  is_state : bool;
  table_obj : table;
  join_table : option table;
  join_query_wasm_name : N;
  join_key_values : list key;
  join_query_is_state : bool;
  fields_from_join : list key
}.

(** The loop of [config::prepare] over the fields of one table: [pos] is a
    [uint32_t]; after the [break] the remaining fields are not touched. *)
Fixpoint prepare_fields (pos : N) (fs : list field) : list field :=
  match fs with
  | [] => []
  | f :: rest =>
      let f' := make_field (field_name f) (type_obj f) (Some pos) in
      let size := type_get_fixed_size (type_obj f) in
      if size =? 0 then f' :: rest
      else f' :: prepare_fields ((pos + size) mod 2 ^ 32) rest
  end.

(** The fixed sizes of the fields, in the order of the table. *)
Definition fixed_sizes (fs : list field) : list N :=
  map (fun f => type_get_fixed_size (type_obj f)) fs.

(** The sum of the sizes: the offset behind the fields. *)
Definition offset (sizes : list N) : N := fold_right N.add 0 sizes.

(** The body of the loop of [config::prepare] over the tables. *)
Definition prepare_table (tab : table) : result table :=
  match find table_names (table_name tab) with
  | None => Throw (unknown_table (table_name tab))
  | Some n => Ok (make_table (table_name tab) (prepare_fields 0 (fields tab)) n)
  end.

(** The loop of [config::prepare] over the tables; the first unknown table
    throws. *)
Fixpoint prepare_tables (tabs : list table) : result (list table) :=
  match tabs with
  | [] => Ok []
  | tab :: rest =>
      tab' <-- prepare_table tab ;;
      rest' <-- prepare_tables rest ;;
      Ok (tab' :: rest')
  end.

Section config.

(** [query_config::config<defs>::prepare(type_map)], applied to the tables
    of the configuration: the base class is not part of the sources. *)
Variable query_config_prepare : list table -> result (list table).

(** [defs::config::prepare] *)
Definition prepare (tables : list table) : result (list table) :=
  tables0 <-- query_config_prepare tables ;;
  prepare_tables tables0.

End config.

(** ** rocksdb_query_session *)

(** The body of the loop of [append_fields] for one key. *)
Definition append_field (src : bytes) (key : key) (xform_key : bool) : M unit :=
  match byte_position (key_field key) with
  | None => throw (key_has_unknown_position (key_name key))
  | Some pos =>
      if N.of_nat (length src) <? pos then throw key_position_out_of_range
      else
        let key_pos := skipn (N.to_nat pos) src in
        (if xform_key
         then type_bin_to_bin_key (type_obj (key_field key)) key_pos
         else type_bin_to_bin (type_obj (key_field key)) key_pos) ;;;
        ret tt
  end.

(** [append_fields(dest, src, keys, xform_key)] *)
Fixpoint append_fields (src : bytes) (keys : list key) (xform_key : bool) : M unit :=
  match keys with
  | [] => ret tt
  | key :: rest =>
      append_field src key xform_key ;;;
      append_fields src rest xform_key
  end.

(** The bytes of the payload [src] that the field of [key] occupies: from
    its byte position, as many as its fixed size. *)
Definition field_slice (src : bytes) (key : key) : bytes :=
  match byte_position (key_field key) with
  | None => []
  | Some pos =>
      firstn (N.to_nat (type_get_fixed_size (type_obj (key_field key))))
             (skipn (N.to_nat pos) src)
  end.

(** The field of [key] is of a registered type [T] of fixed size, and lies
    within the payload [src]. *)
Definition fixed_in (src : bytes) (key : key) (T : cpp_type) : Prop :=
  type_obj (key_field key) = make_type_for T /\
  get_fixed_size T <> 0 /\
  exists pos, byte_position (key_field key) = Some pos /\
              pos + get_fixed_size T <= N.of_nat (length src).

(** The lambda [add_fields] of [query_database]: every type reads its
    argument from [query_bin], which is captured by reference. *)
Fixpoint add_fields (types : list type) (query_bin : bytes) : M bytes :=
  match types with
  | [] => ret query_bin
  | ty :: rest =>
      query_bin' <- type_query_to_bin_key ty query_bin ;;
      add_fields rest query_bin'
  end.

(** The two calls [add_fields(first, ...); add_fields(last, ...)]: the
    bounds and the buffer left for the result cap. *)
Definition range_bounds (types : list type) (prefix query_bin : bytes)
  : result (bytes * bytes * bytes) :=
  r1 <-- local (add_fields types query_bin prefix) ;;
  r2 <-- local (add_fields types (fst r1) prefix) ;;
  Ok (snd r1, snd r2, fst r2).

(** The layout in the words of the specification ("for each range type in
    order: append to first, then to last"), to compare [range_bounds]
    with. *)
Fixpoint range_bounds_interleaved (types : list type) (first last query_bin : bytes)
  : result (bytes * bytes * bytes) :=
  match types with
  | [] => Ok (first, last, query_bin)
  | ty :: rest =>
      r1 <-- local (type_query_to_bin_key ty query_bin first) ;;
      r2 <-- local (type_query_to_bin_key ty (fst r1) last) ;;
      range_bounds_interleaved rest (snd r1) (snd r2) (fst r2)
  end.

(** Modelled from the spec: the protocol of [rdb::for_each] and
    [rdb::for_each_subkey], which are not part of the sources ("lazy
    iterators with early-exit; callers must be able to stop the scan after
    any element"): the callback sees the items in order until it returns
    [false]; what it throws ends the scan. *)
Fixpoint visit {A S} (items : list A) (f : A -> S -> result (bool * S)) (s : S)
  : result S :=
  match items with
  | [] => Ok s
  | x :: rest =>
      r <-- f x s ;;
      if fst r then visit rest f (snd r) else Ok (snd r)
  end.

Section rocksdb_query_session.

(** The session's view of its collaborators (none is part of the sources):
    the query map of the prepared configuration; the index keys that
    [rdb::for_each_subkey(db, first, last, _)] enumerates and the entries
    (key, value) that [rdb::for_each(db, lower, upper, _)] enumerates, in
    the order of the scan; and [db->Get] followed by [rdb::check]. *)
Variable query_map : N -> option query.
Variable subkeys : bytes -> bytes -> list bytes.
Variable entries : bytes -> bytes -> list (bytes * bytes).
Variable Get : bytes -> result bytes.

(** Modelled from the spec: [rdb::for_each_subkey(db, first, last, f)]. *)
Definition for_each_subkey {S} (first last : bytes)
    (f : bytes -> S -> result (bool * S)) (s : S) : result S :=
  visit (subkeys first last) f s.

(** Modelled from the spec: [rdb::for_each(db, lower, upper, f)]. *)
Definition for_each {S} (lower upper : bytes)
    (f : bytes * bytes -> S -> result (bool * S)) (s : S) : result S :=
  visit (entries lower upper) f s.

(** [index_key] with the state suffix for [max_block_num], when the index
    is one of a state table. *)
Definition limit_block (state : bool) (max_block_num : N) (index_key : bytes)
  : result bytes :=
  if state then
    r <-- local (append_table_index_state_suffix_block max_block_num index_key) ;;
    Ok (snd r)
  else Ok index_key.

(** The innermost lambda: the state is [found_join] and the row that [row]
    refers to. *)
Definition join_entry (q : query) (join_delta_key : bytes) (st : bool * bytes)
  : result (bool * (bool * bytes)) :=
  join_delta_value <-- Get join_delta_key ;;
  r <-- local (append_fields join_delta_value (fields_from_join q) false (snd st)) ;;
  Ok (false, (true, snd r)).

(** The bounds of the scan of the join index for the row [delta_value]:
    [join_key_limit_block] and [join_key]. *)
Definition join_range (q : query) (jt : table) (max_block_num : N)
    (delta_value : bytes) : result (bytes * bytes) :=
  join_key0 <-- make_table_index_key (short_name jt) (join_query_wasm_name q) ;;
  r <-- local (append_fields delta_value (join_key_values q) true join_key0) ;;
  let join_key := snd r in
  join_key_limit_block <-- limit_block (join_query_is_state q) max_block_num join_key ;;
  Ok (join_key_limit_block, join_key).

(** The lambda given to [for_each] for an index key; the state is [rows]. *)
Definition index_entry (q : query) (max_block_num : N) (delta_key : bytes)
    (rows : list bytes) : result (bool * list bytes) :=
  delta_value <-- Get delta_key ;;
  let rows1 := rows ++ [delta_value] in
  match join_table q with
  | None => Ok (false, rows1)
  | Some jt =>
      jr <-- join_range q jt max_block_num delta_value ;;
      st <-- for_each (fst jr) (snd jr)
               (fun e => join_entry q (snd e)) (false, last rows1 []) ;;
      if fst st then Ok (false, removelast rows1 ++ [snd st])
      else Ok (false, removelast rows1)
  end.

(** The lambda given to [for_each_subkey]; the state is [rows] and
    [num_results]. *)
Definition subkey_entry (q : query) (max_block_num max_results : N)
    (index_key : bytes) (st : list bytes * N) : result (bool * (list bytes * N)) :=
  index_key_limit_block <-- limit_block (is_state q) max_block_num index_key ;;
  rows <-- for_each index_key_limit_block index_key
             (fun e => index_entry q max_block_num (snd e)) (fst st) ;;
  let num_results := (snd st + 1) mod 2 ^ 32 in
  Ok (num_results <? max_results, (rows, num_results)).

(** What [query_database] has read from [query_bin] when the scan starts. *)
Record plan : Type := make_plan {
  plan_query : query;
  plan_max_block_num : N;
  plan_first : bytes;
  plan_last : bytes;
  plan_max_results : N
}.

Definition read_plan (query_bin : bytes) (head : N) : result plan :=
  r <-- abieos.bin_to_native name_t query_bin ;;
  let query_name := fst r in
  match query_map query_name with
  | None => Throw (unknown_query query_name)
  | Some q =>
      match arg_types q with
      | _ :: _ => Throw (query_not_implemented query_name)
      | [] =>
          rb <-- (if limit_block_num q then
                    b <-- abieos.bin_to_native uint32_t (snd r) ;;
                    Ok (N.min head (fst b), snd b)
                  else Ok (0, snd r)) ;;
          first <-- make_table_index_key (short_name (table_obj q)) query_name ;;
          bounds <-- range_bounds (range_types q) first (snd rb) ;;
          cap <-- abieos.read_raw uint32_t (snd bounds) ;;
          Ok (make_plan q (fst rb) (fst (fst bounds)) (snd (fst bounds))
                        (N.min (fst cap) (max_results q)))
      end
  end.

(** The scan of [query_database]: the rows and [num_results] at its end. *)
Definition scan (p : plan) : result (list bytes * N) :=
  for_each_subkey (plan_first p) (plan_last p)
    (subkey_entry (plan_query p) (plan_max_block_num p) (plan_max_results p))
    ([], 0).

(** [query_database(query_bin, head)] *)
Definition query_database (query_bin : bytes) (head : N) : result bytes :=
  p <-- read_plan query_bin head ;;
  st <-- scan p ;;
  let result := abieos.native_to_bin_rows (fst st) in
  if 2 ^ 32 <=? N.of_nat (length result) then Throw result_too_big
  else Ok result.

End rocksdb_query_session.

(** ** Vocabulary of the properties *)

(** The computation [m] throws nothing but errors in [P]. *)
Definition throws_only {A} (P : error -> Prop) (m : M A) : Prop :=
  forall dest e d, m dest = Threw e d -> P e.

(** What the operations of a registered type throw. *)
Definition codec_error (e : error) : Prop :=
  e = unsupported_key_type \/ e = abieos_error.

(** The types whose canonical form is [sizeof(T)] raw bytes. *)
Definition is_scalar (T : cpp_type) : bool :=
  match T with
  | varuint32_t | string_t | bytes_t => false
  | _ => true
  end.

(** The types that [query_to_bin_key] accepts: those of the key codec, and
    [varuint32], which a query passes as a [uint32_t]. *)
Definition range_type_test (T : cpp_type) : bool :=
  key_type_test T || is_same_v T varuint32_t.

(** The arguments [args] are one canonical value for each of the types. *)
Definition args_of (Ts : list cpp_type) (args : list bytes) : Prop :=
  Forall2 (fun T a => length a = sizeof T) Ts args.

(** ** A small catalog and store, to run the definitions on *)

Local Open Scope string_scope.

(** A table as the base class hands it over: three fixed fields, then a
    variable-width one, then a fixed one. *)
Definition example_account : table :=
  make_table "account"
    [ make_field "block_num" (make_type_for uint32_t) None;
      make_field "present" (make_type_for bool_t) None;
      make_field "name" (make_type_for name_t) None;
      make_field "abi" (make_type_for bytes_t) None;
      make_field "vm_type" (make_type_for uint8_t) None ]
    0.

(** The same table after [prepare]. *)
Definition example_account_prepared : table :=
  make_table "account"
    [ make_field "block_num" (make_type_for uint32_t) (Some 0);
      make_field "present" (make_type_for bool_t) (Some 4);
      make_field "name" (make_type_for name_t) (Some 5);
      make_field "abi" (make_type_for bytes_t) (Some 13);
      make_field "vm_type" (make_type_for uint8_t) None ]
    (_n "account").

(** A row of that table: block 7, present, the name "alice", an empty
    abi, vm type 0. *)
Definition example_row : bytes :=
  (abieos.le_bytes 4 7 ++ [x01] ++ abieos.le_bytes 8 (_n "alice") ++ [x00; x00])%list.

Definition example_key (i : nat) : key :=
  match nth_error (fields example_account_prepared) i with
  | Some f => make_key (field_name f) f
  | None => make_key "" (make_field "" (make_type_for bool_t) None)
  end.

(** A query without range arguments and without a join, and one that joins
    the table with itself on "name" and lifts "block_num". *)
Definition example_query : query :=
  make_query [] [] false 100 false example_account_prepared None 0 [] false [].

Definition example_join_query : query :=
  make_query [] [] false 100 false example_account_prepared
             (Some example_account_prepared) (_n "by.name")
             [example_key 2] true [example_key 0].

(** A query with two range arguments of one byte each. *)
Definition example_range_query : query :=
  make_query [] [make_type_for uint8_t; make_type_for uint8_t] false 100 false
             example_account_prepared None 0 [] false [].

(** A store with three index keys in every range, one entry for each, and
    the row above behind every key. *)
Definition example_subkeys (first last : bytes) : list bytes :=
  [first ++ [x01]; first ++ [x02]; first ++ [x03]]%list.

Definition example_entries (lower upper : bytes) : list (bytes * bytes) :=
  [(lower, [x60])].

Definition example_Get (k : bytes) : result bytes := Ok example_row.


(** The same store with an empty join index: only the keys of the outer
    index (the 17 bytes of tag, table and query, and one more) have an
    entry. *)
Definition example_entries_no_join (lower upper : bytes) : list (bytes * bytes) :=
  if (length upper <=? 18)%nat then [(lower, [x60])] else [].

Local Close Scope string_scope.

(** ** The other keys of the key space *)

(** The vector that a chain of appends builds from an empty one. *)
Definition built (m : M unit) : result bytes :=
  r <-- local (m []) ;;
  Ok (snd r).

(** [make_block_key()] *)
Definition make_block_key_0 : result bytes :=
  built (native_to_bin_key uint8_t key_tag.block).

(** [make_block_key(block)] *)
Definition make_block_key (block : N) : result bytes :=
  built (native_to_bin_key uint8_t key_tag.block ;;;
         native_to_bin_key uint32_t block).

(** [make_fill_status_key()] *)
Definition make_fill_status_key : result bytes :=
  built (native_to_bin_key uint8_t key_tag.fill_status).

(** [make_received_block_key(block)] *)
Definition make_received_block_key (block : N) : result bytes :=
  built (native_to_bin_key uint8_t key_tag.block ;;;
         native_to_bin_key uint32_t block ;;;
         native_to_bin_key uint8_t key_tag.received_block).

(** [make_table_row_key(block)] *)
Definition make_table_row_key (block : N) : result bytes :=
  built (native_to_bin_key uint8_t key_tag.block ;;;
         native_to_bin_key uint32_t block ;;;
         native_to_bin_key uint8_t key_tag.table_row).

(** [make_block_info_key(block)] *)
Definition make_block_info_key (block : N) : result bytes :=
  built (native_to_bin_key uint8_t key_tag.block ;;;
         native_to_bin_key uint32_t block ;;;
         native_to_bin_key uint8_t key_tag.table_row ;;;
         native_to_bin_key name_t (_n "block.info")).

(** [append_transaction_trace_key(dest, block, transaction_id)] *)
Definition append_transaction_trace_key (block transaction_id : N) : M unit :=
  native_to_bin_key uint8_t key_tag.block ;;;
  native_to_bin_key uint32_t block ;;;
  native_to_bin_key uint8_t key_tag.table_row ;;;
  native_to_bin_key name_t (_n "ttrace") ;;;
  native_to_bin_key checksum256_t transaction_id.

(** [append_action_trace_key(dest, block, transaction_id, action_index)] *)
Definition append_action_trace_key (block transaction_id action_index : N) : M unit :=
  native_to_bin_key uint8_t key_tag.block ;;;
  native_to_bin_key uint32_t block ;;;
  native_to_bin_key uint8_t key_tag.table_row ;;;
  native_to_bin_key name_t (_n "atrace") ;;;
  native_to_bin_key checksum256_t transaction_id ;;;
  native_to_bin_key uint32_t action_index.

(** [append_delta_key(dest, block)] *)
Definition append_delta_key_1 (block : N) : M unit :=
  native_to_bin_key uint8_t key_tag.block ;;;
  native_to_bin_key uint32_t block ;;;
  native_to_bin_key uint8_t key_tag.table_delta.

(** [append_delta_key(dest, block, present, table)] *)
Definition append_delta_key (block : N) (present : bool) (table : N) : M unit :=
  native_to_bin_key uint8_t key_tag.block ;;;
  native_to_bin_key uint32_t block ;;;
  native_to_bin_key uint8_t key_tag.table_delta ;;;
  native_to_bin_key name_t table ;;;
  native_to_bin_key bool_t (N.b2n present).

(** [append_table_index_key(dest)] *)
Definition append_table_index_key_0 : M unit :=
  native_to_bin_key uint8_t key_tag.table_index.

(** [make_table_index_key()] *)
Definition make_table_index_key_0 : result bytes :=
  built append_table_index_key_0.

(** [make_table_index_ref_key()] *)
Definition make_table_index_ref_key_0 : result bytes :=
  built (native_to_bin_key uint8_t key_tag.table_index_ref).

(** [make_table_index_ref_key(block)] *)
Definition make_table_index_ref_key_1 (block : N) : result bytes :=
  built (native_to_bin_key uint8_t key_tag.table_index_ref ;;;
         native_to_bin_key uint32_t block).

(** [result.insert(result.end(), v.begin(), v.end())] *)
Definition insert_end (v : bytes) : M unit := fun dest => Done tt (dest ++ v).

(** [make_table_index_ref_key(block, table_key)] *)
Definition make_table_index_ref_key_2 (block : N) (table_key : bytes) : result bytes :=
  built (native_to_bin_key uint8_t key_tag.table_index_ref ;;;
         native_to_bin_key uint32_t block ;;;
         insert_end table_key).

(** [make_table_index_ref_key(block, table_key, table_index_key)] *)
Definition make_table_index_ref_key (block : N) (table_key table_index_key : bytes)
  : result bytes :=
  built (native_to_bin_key uint8_t key_tag.table_index_ref ;;;
         native_to_bin_key uint32_t block ;;;
         insert_end table_key ;;;
         insert_end table_index_key).

(** ** Reading keys back *)

(** [bin_to_key_tag(b)] *)
Definition bin_to_key_tag (b : bytes) : result (N * bytes) :=
  abieos.bin_to_native uint8_t b.

Local Open Scope string_scope.

(** [to_string(key_tag)] *)
Definition to_string (t : N) : string :=
  if (t =? key_tag.fill_status)%N then "fill_status"
  else if (t =? key_tag.block)%N then "block"
  else if (t =? key_tag.received_block)%N then "received_block"
  else if (t =? key_tag.table_row)%N then "table_row"
  else if (t =? key_tag.table_delta)%N then "table_delta"
  else if (t =? key_tag.table_index)%N then "table_index"
  else if (t =? key_tag.table_index_ref)%N then "table_index_ref"
  else "?".

Section key_to_string.

(** The conversions to text that [key_to_string] calls; none is part of the
    sources: [std::to_string] of a [uint32_t], the conversion of an
    [abieos::name] to [std::string], and [abieos::hex] of the rest of the
    buffer. *)
Variable to_string_uint32 : N -> string.
Variable name_to_string : N -> string.
Variable hex : bytes -> string.

(** [key_to_string(b)]: the tag of the key is read outside the [try]
    block; whatever is thrown inside it ends the text collected so far with
    " (deserialize error)". *)
Definition key_to_string (b : bytes) : result string :=
  r0 <-- bin_to_key_tag b ;;
  let result := to_string (fst r0) in
  if (fst r0 =? key_tag.block)%N then
    match bin_to_native_key uint32_t (snd r0) with
    | Throw _ => Ok (result ++ " (deserialize error)")
    | Ok (block, b1) =>
        let result := result ++ " " ++ to_string_uint32 block in
        match bin_to_key_tag b1 with
        | Throw _ => Ok (result ++ " (deserialize error)")
        | Ok (t1, b2) =>
            let result := result ++ " " ++ to_string t1 in
            if (t1 =? key_tag.table_row)%N then
              match bin_to_native_key name_t b2 with
              | Throw _ => Ok (result ++ " (deserialize error)")
              | Ok (table_name, b3) =>
                  Ok (result ++ " '" ++ name_to_string table_name ++ "' " ++ hex b3)
              end
            else if (t1 =? key_tag.table_delta)%N then
              match bin_to_native_key name_t b2 with
              | Throw _ => Ok (result ++ " (deserialize error)")
              | Ok (table_name, b3) =>
                  match bin_to_native_key bool_t b3 with
                  | Throw _ => Ok (result ++ " (deserialize error)")
                  | Ok (present, b4) =>
                      Ok (result ++ " '" ++ name_to_string table_name
                                 ++ "' present: "
                                 ++ (if (present =? 0)%N then "false" else "true")
                                 ++ " " ++ hex b4)
                  end
              end
            else Ok (result ++ " ...")
        end
    end
  else Ok (result ++ " ...").

End key_to_string.

Local Close Scope string_scope.

(** ** The session's point lookups *)

(** [struct received_block], with the members in the order of its
    [ABIEOS_REFLECT]. *)
Record received_block : Type := make_received_block {
  block_num : N;
  block_id : N
}.

(** Modelled from the spec: [abieos::bin_to_native<received_block>(bin)],
    the canonical forms of the members one after the other. *)
Definition bin_to_native_received_block (bin : bytes) : result (received_block * bytes) :=
  r1 <-- abieos.bin_to_native uint32_t bin ;;
  r2 <-- abieos.bin_to_native checksum256_t (snd r1) ;;
  Ok (make_received_block (fst r1) (fst r2), snd r2).

(** Modelled from the spec: [abieos::native_to_bin(received_block)]. *)
Definition native_to_bin_received_block (rb : received_block) : bytes :=
  abieos.le_bytes 4 (block_num rb) ++ abieos.le_bytes 32 (block_id rb).

(** The store as the point lookups see it: the value under a key. *)
Definition database : Type := bytes -> option bytes.

(** Modelled from the spec: the store after a write of [value] under
    [key]. *)
Definition put (key value : bytes) (db : database) : database :=
  fun k =>
    match bytewise_cmp key k with
    | Eq => Some value
    | _ => db k
    end.

(** Modelled from the spec: [rdb::get<T>(db, key, required)], the store's
    "get(key) -> value?" followed by the reader of [T]; an absent key is an
    error only when the value is required. *)
Definition rdb_get {T} (reader : bytes -> result (T * bytes))
    (db : database) (key : bytes) (required : bool) : result (option T) :=
  match db key with
  | None => if required then Throw rocksdb_error else Ok None
  | Some value =>
      r <-- reader value ;;
      Ok (Some (fst r))
  end.

(** [rocksdb_query_session::get_block_id(block_num)] *)
Definition get_block_id (db : database) (block_num : N) : result (option N) :=
  key <-- make_received_block_key block_num ;;
  rb <-- rdb_get bin_to_native_received_block db key false ;;
  match rb with
  | Some rb => Ok (Some (block_id rb))
  | None => Ok None
  end.

(** ** Vocabulary of the further properties *)



(** [p] is a prefix of [x]. *)
Definition is_prefix (p x : bytes) : Prop := exists ext, x = p ++ ext.

(** [a] sorts at or before [b]. *)
Definition bytes_le (a b : bytes) : Prop := bytewise_cmp a b <> Gt.

(** [a] sorts strictly before [b]. *)
Definition bytes_lt (a b : bytes) : Prop := bytewise_cmp a b = Lt.

(** [k] is a key of one of the families that start with the block tag and
    the number [block]: the received block, a row of a table (the key of
    [make_table_row_key] followed by the table and the primary key), the
    block info, a transaction trace, an action trace, a delta of a state
    table (the key of [append_delta_key] followed by the primary key). *)
Definition per_block_key (block : N) (k : bytes) : Prop :=
  make_received_block_key block = Ok k
  \/ (exists r rest, make_table_row_key block = Ok r /\ k = r ++ rest)
  \/ make_block_info_key block = Ok k
  \/ (exists transaction_id,
        append_transaction_trace_key block transaction_id [] = Done tt k)
  \/ (exists transaction_id action_index,
        append_action_trace_key block transaction_id action_index [] = Done tt k)
  \/ (exists d rest, append_delta_key_1 block [] = Done tt d /\ k = d ++ rest)
  \/ (exists present table d rest,
        append_delta_key block present table [] = Done tt d /\ k = d ++ rest).

(** The row that a group contributes to a query without a join: the value
    behind the first entry of its scan, when there is one. *)
Definition first_row (entries : bytes -> bytes -> list (bytes * bytes))
    (value : bytes -> bytes) (lower upper : bytes) : list bytes :=
  match entries lower upper with
  | [] => []
  | e :: _ => [value (snd e)]
  end.

(** * Properties *)

(** ** Bytes and their order *)

Lemma to_N_lt (b : byte) : Byte.to_N b < 256.
Proof. pose proof (Byte.to_N_bounded b). lia. Qed.

Lemma to_N_to_char (n : N) : Byte.to_N (to_char n) = n mod 256.
Proof.
  unfold to_char.
  destruct (Byte.of_N (n mod 256)) as [b|] eqn:E.
  - now apply Byte.to_of_N.
  - apply Byte.of_N_None_iff in E.
    pose proof (N.mod_upper_bound n 256). lia.
Qed.

Lemma to_char_to_N (b : byte) : to_char (Byte.to_N b) = b.
Proof.
  unfold to_char.
  rewrite N.mod_small by apply to_N_lt.
  now rewrite Byte.of_to_N.
Qed.

Lemma to_N_inj (x y : byte) : Byte.to_N x = Byte.to_N y -> x = y.
Proof.
  intros H. rewrite <- (to_char_to_N x), <- (to_char_to_N y). now rewrite H.
Qed.

Lemma pow256_pos (n : N) : 0 < 256 ^ n.
Proof. apply N.neq_0_lt_0, N.pow_nonzero. discriminate. Qed.

Lemma pow256_succ (n : nat) : 256 ^ N.of_nat (S n) = 256 * 256 ^ N.of_nat n.
Proof. rewrite Nat2N.inj_succ. apply N.pow_succ_r'. Qed.

Lemma be_value_lt (bs : bytes) : be_value bs < 256 ^ N.of_nat (length bs).
Proof.
  induction bs as [|b r IH]; cbn [be_value length].
  - reflexivity.
  - rewrite pow256_succ. pose proof (to_N_lt b). nia.
Qed.

Lemma be_value_app (a b : bytes) :
  be_value (a ++ b) = be_value a * 256 ^ N.of_nat (length b) + be_value b.
Proof.
  induction a as [|x a IH]; cbn [be_value app length].
  - reflexivity.
  - rewrite IH, length_app, Nat2N.inj_add, N.pow_add_r. ring.
Qed.

Lemma bytewise_cmp_refl (a : bytes) : bytewise_cmp a a = Eq.
Proof.
  induction a as [|x a IH]; cbn; [reflexivity|].
  now rewrite N.compare_refl.
Qed.

Lemma bytewise_cmp_eq (a b : bytes) : bytewise_cmp a b = Eq -> a = b.
Proof.
  revert b; induction a as [|x a IH]; intros [|y b]; cbn; try discriminate; auto.
  destruct (Byte.to_N x ?= Byte.to_N y) eqn:E; try discriminate.
  intros H. apply N.compare_eq in E. apply to_N_inj in E.
  f_equal; auto.
Qed.

(** Keys of one width are ordered as the big-endian numbers they spell. *)
Lemma bytewise_cmp_be_value (a b : bytes) :
  length a = length b -> bytewise_cmp a b = (be_value a ?= be_value b).
Proof.
  revert b; induction a as [|x a IH]; intros [|y b] L; try discriminate L.
  - reflexivity.
  - injection L as L. cbn [bytewise_cmp be_value]. rewrite <- L.
    pose proof (be_value_lt a) as Ha. pose proof (be_value_lt b) as Hb.
    rewrite <- L in Hb.
    pose proof (pow256_pos (N.of_nat (length a))) as P.
    destruct (Byte.to_N x ?= Byte.to_N y) eqn:E.
    + apply N.compare_eq in E. rewrite E, (IH b L).
      destruct (N.compare_spec (be_value a) (be_value b)); symmetry;
        [apply N.compare_eq_iff | apply N.compare_lt_iff | apply N.compare_gt_iff];
        lia.
    + apply N.compare_lt_iff in E. symmetry. apply N.compare_lt_iff.
      apply N.le_succ_l in E.
      apply (N.mul_le_mono_r _ _ (256 ^ N.of_nat (length a))) in E.
      rewrite N.mul_succ_l in E. lia.
    + apply N.compare_gt_iff in E. symmetry. apply N.compare_gt_iff.
      apply N.le_succ_l in E.
      apply (N.mul_le_mono_r _ _ (256 ^ N.of_nat (length a))) in E.
      rewrite N.mul_succ_l in E. lia.
Qed.

(** A common prefix does not take part in the comparison. *)
Lemma bytewise_cmp_prefix (p a b : bytes) :
  bytewise_cmp (p ++ a) (p ++ b) = bytewise_cmp a b.
Proof.
  induction p as [|x p IH]; cbn; [reflexivity|].
  now rewrite N.compare_refl.
Qed.

(** Fields of one width are compared before what follows them. *)
Lemma bytewise_cmp_app (a b c d : bytes) :
  length a = length b ->
  bytewise_cmp (a ++ c) (b ++ d) =
    match bytewise_cmp a b with Eq => bytewise_cmp c d | o => o end.
Proof.
  revert b; induction a as [|x a IH]; intros [|y b] L; try discriminate L.
  - reflexivity.
  - injection L as L. cbn.
    destruct (Byte.to_N x ?= Byte.to_N y); auto.
Qed.

(** ** The canonical form of a scalar *)

Lemma length_le_bytes (w : nat) (v : N) : length (abieos.le_bytes w v) = w.
Proof. revert v; induction w; intros; cbn; auto. Qed.

(** Side conditions on the width of keys. *)
Ltac key_length :=
  rewrite ?length_app, ?length_rev, ?length_le_bytes; (reflexivity || lia).

Lemma le_value_le_bytes (w : nat) (v : N) :
  abieos.le_value (abieos.le_bytes w v) = v mod 256 ^ N.of_nat w.
Proof.
  revert v; induction w as [|w IH]; intros v.
  - cbn. now rewrite N.mod_1_r.
  - cbn [abieos.le_bytes abieos.le_value].
    rewrite to_N_to_char, IH, pow256_succ.
    now rewrite N.Div0.mod_mul_r.
Qed.

Lemma be_value_snoc (a : bytes) (x : byte) :
  be_value (a ++ [x]) = 256 * be_value a + Byte.to_N x.
Proof.
  rewrite be_value_app. cbn [be_value length].
  change (256 ^ N.of_nat 1) with 256. change (256 ^ N.of_nat 0) with 1. lia.
Qed.

Lemma be_value_rev (bs : bytes) : be_value (rev bs) = abieos.le_value bs.
Proof.
  induction bs as [|b r IH]; cbn [rev abieos.le_value]; [reflexivity|].
  rewrite be_value_snoc, IH. lia.
Qed.

Lemma le_value_rev (bs : bytes) : abieos.le_value (rev bs) = be_value bs.
Proof. rewrite <- be_value_rev. now rewrite rev_involutive. Qed.

Lemma firstn_skipn_app_exact {A} (a b : list A) :
  firstn (length a) (a ++ b) = a /\ skipn (length a) (a ++ b) = b.
Proof.
  split.
  - rewrite firstn_app, Nat.sub_diag, firstn_all. cbn. apply app_nil_r.
  - rewrite skipn_app, Nat.sub_diag, skipn_all. reflexivity.
Qed.

(** ** The key codec *)

Lemma reverse_bin_appends {A} (f : M A) (a : A) (bin tail : bytes) :
  f bin = Done a (bin ++ tail) ->
  reverse_bin f bin = Done a (bin ++ rev tail).
Proof.
  intros H. unfold reverse_bin. rewrite H.
  destruct (firstn_skipn_app_exact bin tail) as [-> ->]. reflexivity.
Qed.

(** On a type that passes the test, the key is the canonical form byte
    reversed, appended to what the vector held. *)
Lemma native_to_bin_key_done (T : cpp_type) (v : N) (dest : bytes) :
  key_type_test T = true ->
  native_to_bin_key T v dest = Done tt (dest ++ rev (abieos.le_bytes (sizeof T) v)).
Proof.
  intros HT. unfold native_to_bin_key, fixup_key. rewrite HT.
  now apply reverse_bin_appends.
Qed.

Lemma native_to_bin_key_threw (T : cpp_type) (v : N) (dest : bytes) :
  key_type_test T = false ->
  native_to_bin_key T v dest = Threw unsupported_key_type dest.
Proof.
  intros HT. unfold native_to_bin_key, fixup_key. now rewrite HT.
Qed.

(** The types that pass the test. *)
Lemma key_type_test_spec (T : cpp_type) :
  key_type_test T = true <->
  In T [bool_t; uint8_t; uint16_t; uint32_t; uint64_t; uint128_t; name_t; checksum256_t].
Proof.
  split.
  - destruct T; cbn; intros H; try discriminate H; tauto.
  - cbn. intros H. repeat (destruct H as [<- | H]; [reflexivity|]). destruct H.
Qed.

Lemma be_value_key (w : nat) (v : N) :
  v < 256 ^ N.of_nat w -> be_value (rev (abieos.le_bytes w v)) = v.
Proof.
  intros H. rewrite be_value_rev, le_value_le_bytes. now apply N.mod_small.
Qed.

Lemma lnot32 (x : N) : x < 2 ^ 32 -> N.lnot x 32 = 4294967295 - x.
Proof.
  intros H. rewrite N.lnot_sub_low; [reflexivity|].
  destruct (N.eq_dec x 0) as [-> | Hx]; [reflexivity|].
  apply N.log2_lt_pow2; lia.
Qed.

(** ** inc_key *)

Lemma le_value_lt (bs : bytes) : abieos.le_value bs < 256 ^ N.of_nat (length bs).
Proof.
  rewrite <- be_value_rev, <- length_rev. apply be_value_lt.
Qed.

Lemma length_inc_key_from (r : bytes) : length (inc_key_from r) = length r.
Proof.
  induction r as [|c r IH]; cbn [inc_key_from]; [reflexivity|].
  destruct (Byte.to_N (to_char (Byte.to_N c + 1)) =? 0); cbn; auto.
Qed.

Lemma le_value_inc_key_from (r : bytes) :
  abieos.le_value (inc_key_from r)
  = (abieos.le_value r + 1) mod 256 ^ N.of_nat (length r).
Proof.
  induction r as [|c r IH]; [reflexivity|].
  cbn [inc_key_from length]. rewrite pow256_succ.
  pose proof (to_N_lt c) as Hc. pose proof (le_value_lt r) as Hr.
  destruct (Byte.to_N (to_char (Byte.to_N c + 1)) =? 0) eqn:E;
    cbn [abieos.le_value]; rewrite to_N_to_char in *.
  - apply N.eqb_eq in E. rewrite E, IH.
    assert (Byte.to_N c = 255) as ->.
    { destruct (N.eq_dec (Byte.to_N c) 255) as [|Hn]; [assumption|].
      rewrite N.mod_small in E by lia. lia. }
    replace (255 + 256 * abieos.le_value r + 1) with (256 * (abieos.le_value r + 1)) by lia.
    rewrite N.Div0.mul_mod_distr_l. lia.
  - apply N.eqb_neq in E.
    assert (Byte.to_N c + 1 < 256) as Hlt.
    { destruct (N.eq_dec (Byte.to_N c) 255) as [Hn|Hn]; [|lia].
      rewrite Hn in E. now contradiction E. }
    rewrite (N.mod_small (Byte.to_N c + 1)) by assumption.
    rewrite N.mod_small by lia. lia.
Qed.

Lemma be_value_inc_key (k : bytes) :
  be_value (inc_key k) = (be_value k + 1) mod 256 ^ N.of_nat (length k).
Proof.
  unfold inc_key. rewrite be_value_rev, le_value_inc_key_from.
  now rewrite le_value_rev, length_rev.
Qed.

Lemma length_inc_key (k : bytes) : length (inc_key k) = length k.
Proof.
  unfold inc_key. now rewrite length_rev, length_inc_key_from, length_rev.
Qed.

Lemma all_ff_false_be_value (k : bytes) :
  all_ff k = false -> be_value k + 1 < 256 ^ N.of_nat (length k).
Proof.
  induction k as [|b r IH]; cbn [all_ff forallb be_value length]; [discriminate|].
  rewrite pow256_succ.
  pose proof (to_N_lt b) as Hb. pose proof (be_value_lt r) as Hr.
  destruct (Byte.to_N b =? 255) eqn:E; cbn [andb].
  - intros H. specialize (IH H). apply N.eqb_eq in E. rewrite E. lia.
  - intros _. apply N.eqb_neq in E.
    assert (Byte.to_N b <= 254) as Hle by lia.
    apply (N.mul_le_mono_r _ _ (256 ^ N.of_nat (length r))) in Hle. lia.
Qed.

Lemma rev_repeat_same {A} (x : A) (n : nat) : rev (repeat x n) = repeat x n.
Proof.
  induction n as [|n IH]; [reflexivity|].
  cbn [repeat rev]. rewrite IH. symmetry. apply repeat_cons.
Qed.

Lemma inc_key_from_all_ff (r : bytes) :
  all_ff r = true -> inc_key_from r = repeat x00 (length r).
Proof.
  induction r as [|c r IH]; cbn [all_ff forallb]; [reflexivity|].
  intros H. apply andb_prop in H as [Hc Hr]. apply N.eqb_eq in Hc.
  cbn [inc_key_from length repeat]. rewrite Hc.
  change (to_char (255 + 1)) with x00. cbn [Byte.to_N N.eqb].
  f_equal. now apply IH.
Qed.

Lemma all_ff_rev (k : bytes) : all_ff (rev k) = all_ff k.
Proof.
  unfold all_ff.
  destruct (forallb _ k) eqn:E.
  - apply forallb_forall. intros x Hx. apply in_rev in Hx.
    rewrite forallb_forall in E. now apply E.
  - destruct (forallb _ (rev k)) eqn:E'; [|reflexivity].
    rewrite <- E. symmetry. apply forallb_forall. intros x Hx.
    rewrite forallb_forall in E'. apply E'. now apply in_rev in Hx.
Qed.

(** The first scenario of the specification: the 32-bit keys of 1, 256,
    65536 and 4294967295. *)
Example native_to_bin_key_u32 :
  map (fun v => native_to_bin_key uint32_t v []) [1; 256; 65536; 4294967295]
  = [ Done tt [x00; x00; x00; x01]; Done tt [x00; x00; x01; x00];
      Done tt [x00; x01; x00; x00]; Done tt [xff; xff; xff; xff] ].
Proof. reflexivity. Qed.

(** Keys compare as numbers.  For every type [T] that the key codec accepts
    and all values [a], [b] of [T], where a value is the unsigned number
    that its canonical little-endian form spells, [native_to_bin_key]
    appends keys whose bytewise comparison is the comparison of the two
    numbers. *)
Theorem native_to_bin_key_order (T : cpp_type) (a b : N) (dest : bytes) :
  key_type_test T = true -> fits T a -> fits T b ->
  exists ka kb,
    native_to_bin_key T a dest = Done tt ka /\
    native_to_bin_key T b dest = Done tt kb /\
    bytewise_cmp ka kb = (a ?= b) /\
    (a < b -> bytewise_cmp ka kb = Lt).
Proof.
  intros HT Ha Hb.
  exists (dest ++ rev (abieos.le_bytes (sizeof T) a)),
         (dest ++ rev (abieos.le_bytes (sizeof T) b)).
  assert (bytewise_cmp (dest ++ rev (abieos.le_bytes (sizeof T) a))
                       (dest ++ rev (abieos.le_bytes (sizeof T) b)) = (a ?= b)) as Hcmp.
  { rewrite bytewise_cmp_prefix, bytewise_cmp_be_value.
    - now rewrite !be_value_key.
    - key_length. }
  repeat split; try (now apply native_to_bin_key_done); [assumption|].
  intros Hlt. rewrite Hcmp. now apply N.compare_lt_iff.
Qed.

Lemma native_to_bin_key_order_witness :
  exists ka kb,
    native_to_bin_key name_t 3458764513820540928 [x70] = Done tt ka /\
    native_to_bin_key name_t 17870283321406128128 [x70] = Done tt kb /\
    bytewise_cmp ka kb = (3458764513820540928 ?= 17870283321406128128) /\
    (3458764513820540928 < 17870283321406128128 -> bytewise_cmp ka kb = Lt).
Proof.
  apply (native_to_bin_key_order name_t 3458764513820540928 17870283321406128128 [x70]);
    reflexivity.
Defined.

(** C4. Round trip.  For every type [T] that the key codec accepts and
    every value [v] of [T], [bin_to_native_key<T>] applied to a buffer that
    starts with the key of [v] returns [v] and leaves the buffer just behind
    the key. *)
Theorem bin_to_native_key_native_to_bin_key (T : cpp_type) (v : N) (rest : bytes) :
  key_type_test T = true -> fits T v ->
  exists k,
    native_to_bin_key T v [] = Done tt k /\
    bin_to_native_key T (k ++ rest) = Ok (v, rest).
Proof.
  intros HT Hv.
  exists (rev (abieos.le_bytes (sizeof T) v)).
  split; [now rewrite native_to_bin_key_done|].
  assert (length (rev (abieos.le_bytes (sizeof T) v)) = sizeof T) as L
      by key_length.
  unfold bin_to_native_key. rewrite HT.
  replace (length (rev (abieos.le_bytes (sizeof T) v) ++ rest) <? sizeof T)%nat
    with false by (symmetry; apply Nat.ltb_ge; rewrite length_app; lia).
  destruct (firstn_skipn_app_exact (rev (abieos.le_bytes (sizeof T) v)) rest) as [F S].
  rewrite L in F, S. cbv zeta. rewrite F, S.
  rewrite rev_involutive. unfold abieos.bin_to_native.
  rewrite length_le_bytes, Nat.ltb_irrefl.
  rewrite <- (length_le_bytes (sizeof T) v) at 1. rewrite firstn_all.
  cbn [rbind fst]. rewrite le_value_le_bytes, N.mod_small by exact Hv.
  reflexivity.
Qed.

Lemma bin_to_native_key_native_to_bin_key_witness :
  exists k,
    native_to_bin_key uint16_t 513 [] = Done tt k /\
    bin_to_native_key uint16_t (k ++ [x50; x07]) = Ok (513, [x50; x07]).
Proof.
  apply (bin_to_native_key_native_to_bin_key uint16_t 513 [x50; x07]); reflexivity.
Defined.

Lemma append_table_index_state_suffix_done (block : N) (present : bool) (dest : bytes) :
  append_table_index_state_suffix block present dest
  = Done tt ((dest ++ rev (abieos.le_bytes 4 (N.lnot block 32)))
               ++ [to_char (N.b2n (negb present))]).
Proof.
  unfold append_table_index_state_suffix, bind.
  rewrite native_to_bin_key_done by reflexivity.
  rewrite native_to_bin_key_done by reflexivity.
  reflexivity.
Qed.

(** C3. State-version ordering.  After one and the same prefix [dest] (the
    tag, the table, the index name and the index fields), the suffix that
    [append_table_index_state_suffix] appends for a block [n] sorts strictly
    before the one for an earlier block [m], whatever the two [present]
    flags; and for one block the entry with [present = true] sorts strictly
    before the entry with [present = false]. *)
Theorem append_table_index_state_suffix_order
    (dest : bytes) (m n : N) (p q : bool) :
  n < 2 ^ 32 ->
  (m < n ->
   exists kn km,
     append_table_index_state_suffix n p dest = Done tt kn /\
     append_table_index_state_suffix m q dest = Done tt km /\
     bytewise_cmp kn km = Lt)
  /\
  (exists kt kf,
     append_table_index_state_suffix n true dest = Done tt kt /\
     append_table_index_state_suffix n false dest = Done tt kf /\
     bytewise_cmp kt kf = Lt).
Proof.
  intros Hn. split.
  - intros Hmn. do 2 eexists.
    rewrite !append_table_index_state_suffix_done.
    repeat split.
    rewrite <- !app_assoc, bytewise_cmp_prefix, bytewise_cmp_app
      by key_length.
    rewrite bytewise_cmp_be_value by key_length.
    rewrite !lnot32 by lia.
    rewrite !be_value_key by (change (256 ^ N.of_nat 4) with 4294967296; lia).
    replace (4294967295 - n ?= 4294967295 - m) with Lt; [reflexivity|].
    symmetry. apply N.compare_lt_iff.
    change (2 ^ 32) with 4294967296 in Hn. lia.
  - do 2 eexists.
    rewrite !append_table_index_state_suffix_done.
    repeat split.
    rewrite <- !app_assoc, bytewise_cmp_prefix, bytewise_cmp_app by reflexivity.
    rewrite bytewise_cmp_refl. reflexivity.
Qed.

Lemma append_table_index_state_suffix_order_witness :
  (exists kn km,
     append_table_index_state_suffix 8 false [x70] = Done tt kn /\
     append_table_index_state_suffix 5 true [x70] = Done tt km /\
     bytewise_cmp kn km = Lt)
  /\
  (exists kt kf,
     append_table_index_state_suffix 8 true [x70] = Done tt kt /\
     append_table_index_state_suffix 8 false [x70] = Done tt kf /\
     bytewise_cmp kt kf = Lt).
Proof.
  split.
  - apply (proj1 (append_table_index_state_suffix_order [x70] 5 8 false true eq_refl)).
    reflexivity.
  - apply (proj2 (append_table_index_state_suffix_order [x70] 5 8 false true eq_refl)).
Defined.

(** The fourth scenario of the specification: the entries of blocks 5
    (present), 8 (tombstone) and 12 (present) sort newest first. *)
Example state_suffix_blocks_5_8_12 :
  map (fun e => append_table_index_state_suffix (fst e) (snd e) [])
      [(12, true); (8, false); (5, true)]
  = [ Done tt [xff; xff; xff; xf3; x00];
      Done tt [xff; xff; xff; xf7; x01];
      Done tt [xff; xff; xff; xfa; x00] ].
Proof. reflexivity. Qed.

(** C6. [inc_key].  For a key [k] that is not empty and not all 0xFF,
    [inc_key k] has the length of [k], spells the big-endian number of [k]
    plus one, is strictly greater than [k] bytewise, and no key of that
    length lies strictly between the two; a key of 0xFF bytes only wraps to
    zero bytes. *)
Theorem inc_key_successor (k : bytes) :
  (k <> [] -> all_ff k = false ->
   length (inc_key k) = length k /\
   be_value (inc_key k) = be_value k + 1 /\
   bytewise_cmp k (inc_key k) = Lt /\
   forall k', length k' = length k ->
              bytewise_cmp k k' = Lt -> bytewise_cmp k' (inc_key k) <> Lt)
  /\ (all_ff k = true -> inc_key k = repeat x00 (length k)).
Proof.
  split.
  - intros _ Hff.
    pose proof (all_ff_false_be_value k Hff) as Hb.
    assert (be_value (inc_key k) = be_value k + 1) as Hv
        by (rewrite be_value_inc_key; now apply N.mod_small).
    repeat split.
    + apply length_inc_key.
    + exact Hv.
    + rewrite bytewise_cmp_be_value by now rewrite length_inc_key.
      rewrite Hv. apply N.compare_lt_iff. lia.
    + intros k' L H1 H2.
      rewrite bytewise_cmp_be_value in H1 by now rewrite L.
      rewrite bytewise_cmp_be_value in H2 by now rewrite length_inc_key.
      rewrite Hv in H2.
      rewrite N.compare_lt_iff in H1, H2. lia.
  - intros Hff. unfold inc_key.
    rewrite inc_key_from_all_ff by now rewrite all_ff_rev.
    now rewrite rev_repeat_same, length_rev.
Qed.

Lemma inc_key_successor_witness :
  (length (inc_key [x70; x01; xff]) = length [x70; x01; xff] /\
   be_value (inc_key [x70; x01; xff]) = be_value [x70; x01; xff] + 1 /\
   bytewise_cmp [x70; x01; xff] (inc_key [x70; x01; xff]) = Lt /\
   forall k', length k' = length [x70; x01; xff] ->
              bytewise_cmp [x70; x01; xff] k' = Lt ->
              bytewise_cmp k' (inc_key [x70; x01; xff]) <> Lt)
  /\ inc_key [xff; xff] = repeat x00 (length [xff; xff]).
Proof.
  split.
  - apply (proj1 (inc_key_successor [x70; x01; xff])); [discriminate | reflexivity].
  - apply (proj2 (inc_key_successor [xff; xff])); reflexivity.
Defined.

Example inc_key_carry : inc_key [x70; x01; xff] = [x70; x02; x00].
Proof. reflexivity. Qed.

(** ** The registry entries of the timestamp types *)

Lemma fixup_key_threw {A} (T : cpp_type) (f : M A) (dest : bytes) :
  key_type_test T = false -> fixup_key T f dest = Threw unsupported_key_type dest.
Proof. intros HT. unfold fixup_key. now rewrite HT. Qed.

(** [bin_to_bin_key] of the registry entry "time_point" throws on a
    well-formed payload, so key encoding of a timestamp does not succeed. *)
Lemma bin_to_bin_key_time_point_throws :
  exists ty,
    find abi_type_to_kv_type "time_point" = Some ty /\
    type_bin_to_bin_key ty (abieos.le_bytes 8 1572431820000000) [x70]
    = Threw unsupported_key_type [x70] /\
    ~ exists bin k,
        type_bin_to_bin_key ty (abieos.le_bytes 8 1572431820000000) [x70] = Done bin k.
Proof.
  eexists. split; [reflexivity|]. split; [reflexivity|].
  intros (bin & k & H). discriminate H.
Qed.

(** C5 (as the code has it).  The registry entries of the three timestamp
    types refuse key encoding: [bin_to_bin_key], [query_to_bin_key],
    [lower_bound_key] and [upper_bound_key] throw "unsupported key type"
    whatever the input, and leave the destination as it was; so does
    [native_to_bin_key] on these types. *)
Theorem timestamp_key_unsupported :
  Forall
    (fun name =>
       exists T,
         find abi_type_to_kv_type name = Some (make_type_for T) /\
         forall (bin dest : bytes) (v : N),
           type_bin_to_bin_key (make_type_for T) bin dest = Threw unsupported_key_type dest /\
           type_query_to_bin_key (make_type_for T) bin dest = Threw unsupported_key_type dest /\
           type_lower_bound_key (make_type_for T) dest = Threw unsupported_key_type dest /\
           type_upper_bound_key (make_type_for T) dest = Threw unsupported_key_type dest /\
           native_to_bin_key T v dest = Threw unsupported_key_type dest)
    ["time_point"%string; "time_point_sec"%string; "block_timestamp_type"%string].
Proof.
  repeat constructor.
  - exists time_point_t. split; [reflexivity|]. intros. repeat split.
  - exists time_point_sec_t. split; [reflexivity|]. intros. repeat split.
  - exists block_timestamp_t. split; [reflexivity|]. intros. repeat split.
Qed.

(** ** The catalog: byte positions *)

Lemma fixed_sizes_prepare_fields (fs : list field) (pos : N) :
  fixed_sizes (prepare_fields pos fs) = fixed_sizes fs.
Proof.
  revert pos; induction fs as [|f rest IH]; intros pos; [reflexivity|].
  cbn [prepare_fields].
  destruct (type_get_fixed_size (type_obj f) =? 0); cbn; [reflexivity|].
  f_equal. apply IH.
Qed.

Lemma nth_error_unset (fs : list field) (i : nat) (f : field) :
  Forall (fun f => byte_position f = None) fs ->
  nth_error fs i = Some f -> byte_position f = None.
Proof.
  intros H Hn. apply nth_error_In in Hn.
  rewrite Forall_forall in H. now apply H.
Qed.

(** What the loop leaves in the field at index [i], when it starts at
    [pos] on fields whose position is unset. *)
Lemma prepare_fields_nth (fs : list field) :
  Forall (fun f => byte_position f = None) fs ->
  forall (pos : N) (i : nat) (f : field),
    nth_error (prepare_fields pos fs) i = Some f ->
    (Forall (fun s => s <> 0) (firstn i (fixed_sizes fs)) ->
     byte_position f = Some ((pos + offset (firstn i (fixed_sizes fs))) mod 2 ^ 32)
     \/ (i = 0%nat /\ byte_position f = Some pos))
    /\ (byte_position f <> None ->
        Forall (fun s => s <> 0) (firstn i (fixed_sizes fs))).
Proof.
  induction fs as [|g rest IH]; intros Hun pos i f Hn.
  - destruct i; discriminate Hn.
  - inversion Hun as [|? ? Hg Hrest]; subst.
    cbn [prepare_fields] in Hn.
    destruct i as [|i].
    + assert (byte_position f = Some pos) as Hf.
      { destruct (type_get_fixed_size (type_obj g) =? 0);
          cbn in Hn; injection Hn as <-; reflexivity. }
      split; [right; now split | intros _; constructor].
    + cbn [fixed_sizes map firstn].
      destruct (type_get_fixed_size (type_obj g) =? 0) eqn:E; cbn [nth_error] in Hn.
      * apply N.eqb_eq in E.
        pose proof (nth_error_unset rest i f Hrest Hn) as Hf.
        split.
        -- intros HF. inversion HF; subst. congruence.
        -- intros HS. congruence.
      * apply N.eqb_neq in E.
        destruct (IH Hrest _ _ _ Hn) as [IH1 IH2].
        split.
        -- intros HF. inversion HF as [|? ? _ HF']; subst. left.
           cbn [offset fold_right]. fold (offset (firstn i (fixed_sizes rest))).
           destruct (IH1 HF') as [-> | [-> ->]].
           ++ now rewrite N.Div0.add_mod_idemp_l, N.add_assoc.
           ++ cbn [firstn offset fold_right]. now rewrite N.add_0_r.
        -- intros HS. constructor; [assumption | now apply IH2].
Qed.

Lemma prepare_tables_In (tabs tabs' : list table) (tab' : table) :
  prepare_tables tabs = Ok tabs' -> In tab' tabs' ->
  exists tab, In tab tabs /\ prepare_table tab = Ok tab'.
Proof.
  revert tabs'; induction tabs as [|t rest IH]; intros tabs' H Hin; cbn in H.
  - injection H as <-. destruct Hin.
  - destruct (prepare_table t) as [t'|] eqn:Et; [|discriminate H]. cbn in H.
    destruct (prepare_tables rest) as [rest'|] eqn:Er; [|discriminate H]. cbn in H.
    injection H as <-. destruct Hin as [<- | Hin].
    + exists t. split; [now left | assumption].
    + destruct (IH rest' eq_refl Hin) as (tab & Hi & Hp).
      exists tab. split; [now right | assumption].
Qed.

(** C10. Byte positions after [prepare].  When [prepare] succeeds on
    tables whose fields the base class left without a position, then in
    every table a field has a position exactly when every field before it
    is of a nonzero fixed size; that position is the sum of those sizes as
    a 32-bit number, so the sum itself when it fits.  In particular the
    first field of size zero has the position behind the fixed fields, and
    the fields after it have none. *)
Theorem prepare_byte_position
    (query_config_prepare : list table -> result (list table))
    (tables tables0 tables' : list table) :
  query_config_prepare tables = Ok tables0 ->
  Forall (fun tab => Forall (fun f => byte_position f = None) (fields tab)) tables0 ->
  prepare query_config_prepare tables = Ok tables' ->
  forall (tab : table) (i : nat) (f : field),
    In tab tables' -> nth_error (fields tab) i = Some f ->
    let before := firstn i (fixed_sizes (fields tab)) in
    (byte_position f <> None <-> Forall (fun s => s <> 0) before) /\
    (byte_position f <> None -> byte_position f = Some (offset before mod 2 ^ 32)) /\
    (byte_position f <> None -> offset before < 2 ^ 32 ->
     byte_position f = Some (offset before)).
Proof.
  intros Hbase Hunset Hprep tab i f Hin Hn before.
  unfold prepare in Hprep. rewrite Hbase in Hprep. cbn [rbind] in Hprep.
  destruct (prepare_tables_In _ _ _ Hprep Hin) as (tab0 & Hin0 & Htab).
  unfold prepare_table in Htab.
  destruct (find table_names (table_name tab0)); [|discriminate Htab].
  injection Htab as <-. cbn [fields] in Hn, before.
  rewrite Forall_forall in Hunset. specialize (Hunset tab0 Hin0).
  destruct (prepare_fields_nth _ Hunset 0 i f Hn) as [H1 H2].
  subst before. rewrite fixed_sizes_prepare_fields.
  assert (Forall (fun s => s <> 0) (firstn i (fixed_sizes (fields tab0))) ->
          byte_position f = Some (offset (firstn i (fixed_sizes (fields tab0))) mod 2 ^ 32))
    as H3.
  { intros HF. destruct (H1 HF) as [-> | [-> ->]]; reflexivity. }
  split; [|split].
  - split; [exact H2|]. intros HF. rewrite (H3 HF). discriminate.
  - intros HS. apply H3, H2, HS.
  - intros HS Hlt. rewrite (H3 (H2 HS)). now rewrite N.mod_small.
Qed.

Lemma prepare_byte_position_witness :
  let before := firstn 3 (fixed_sizes (fields example_account_prepared)) in
  (byte_position (make_field "abi" (make_type_for bytes_t) (Some 13)) <> None
   <-> Forall (fun s => s <> 0) before) /\
  (byte_position (make_field "abi" (make_type_for bytes_t) (Some 13)) <> None ->
   byte_position (make_field "abi" (make_type_for bytes_t) (Some 13))
   = Some (offset before mod 2 ^ 32)) /\
  (byte_position (make_field "abi" (make_type_for bytes_t) (Some 13)) <> None ->
   offset before < 2 ^ 32 ->
   byte_position (make_field "abi" (make_type_for bytes_t) (Some 13))
   = Some (offset before)).
Proof.
  apply (prepare_byte_position (fun tabs => Ok tabs)
           [example_account] [example_account] [example_account_prepared]).
  - reflexivity.
  - repeat constructor.
  - reflexivity.
  - now left.
  - reflexivity.
Defined.

(** ** What the operations of a registered type throw *)

Lemma throws_only_bind {A B} (P : error -> Prop) (m : M A) (k : A -> M B) :
  throws_only P m -> (forall a, throws_only P (k a)) -> throws_only P (bind m k).
Proof.
  intros Hm Hk dest e d. unfold bind.
  destruct (m dest) as [a dest'|e' dest'] eqn:E.
  - apply Hk.
  - intros H. injection H as <- <-. eapply Hm, E.
Qed.

Lemma throws_only_lift {A} (P : error -> Prop) (r : result A) :
  (forall e, r = Throw e -> P e) -> throws_only P (lift r).
Proof.
  intros H dest e d. destruct r as [a|e']; cbn; [discriminate|].
  intros H'. injection H' as <- <-. now apply H.
Qed.

Lemma throws_only_ret {A} (P : error -> Prop) (a : A) : throws_only P (ret a).
Proof. intros dest e d H. discriminate H. Qed.

Lemma throws_only_reverse_bin {A} (P : error -> Prop) (f : M A) :
  throws_only P f -> throws_only P (reverse_bin f).
Proof.
  intros Hf dest e d. unfold reverse_bin.
  destruct (f dest) eqn:E; [discriminate|].
  intros H. injection H as <- <-. eapply Hf, E.
Qed.

Lemma throws_only_fixup_key {A} (T : cpp_type) (f : M A) :
  throws_only codec_error f -> throws_only codec_error (fixup_key T f).
Proof.
  intros Hf. unfold fixup_key. destruct (key_type_test T).
  - now apply throws_only_reverse_bin.
  - intros dest e d H. injection H as <- <-. now left.
Qed.

Lemma bin_to_native_throws (T : cpp_type) (bin : bytes) (e : error) :
  abieos.bin_to_native T bin = Throw e -> codec_error e.
Proof.
  unfold abieos.bin_to_native. destruct (_ <? _)%nat; [|discriminate].
  intros H. injection H as <-. now right.
Qed.

Lemma read_varuint32_from_throws (fuel : nat) (shift acc : N) (bin : bytes) (e : error) :
  abieos.read_varuint32_from fuel shift acc bin = Throw e -> codec_error e.
Proof.
  revert bin shift acc; induction fuel as [|fuel IH]; intros bin shift acc; cbn.
  - intros H. injection H as <-. now right.
  - destruct bin as [|b rest].
    + intros H. injection H as <-. now right.
    + destruct (N.testbit (Byte.to_N b) 7); [apply IH | discriminate].
Qed.

Lemma read_varuint32_throws (bin : bytes) (e : error) :
  abieos.read_varuint32 bin = Throw e -> codec_error e.
Proof. apply read_varuint32_from_throws. Qed.

Lemma recode_throws (T : cpp_type) (bin : bytes) :
  throws_only codec_error (abieos.recode T bin).
Proof.
  assert (throws_only codec_error
            (r <- lift (abieos.bin_to_native T bin) ;;
             abieos.native_to_bin T (fst r) ;;; ret (snd r))) as Hscalar.
  { apply throws_only_bind.
    - apply throws_only_lift, bin_to_native_throws.
    - intros r. apply throws_only_bind; [|intros; apply throws_only_ret].
      intros dest e d H. discriminate H. }
  assert (throws_only codec_error
            (r <- lift (abieos.read_varuint32 bin) ;;
             let size := N.to_nat (fst r) in
             if (length (snd r) <? size)%nat then throw abieos_error
             else fun dest =>
                    Done (skipn size (snd r))
                         (dest ++ abieos.push_varuint32 (fst r) ++ firstn size (snd r))))
    as Hblob.
  { apply throws_only_bind.
    - apply throws_only_lift, read_varuint32_throws.
    - intros r dest e d. cbv zeta. destruct (_ <? _)%nat; [|discriminate].
      intros H. injection H as <- <-. now right. }
  destruct T; try exact Hscalar; try exact Hblob.
  apply throws_only_bind.
  - apply throws_only_lift, read_varuint32_throws.
  - intros r dest e d H. discriminate H.
Qed.

Lemma bin_to_bin_throws (T : cpp_type) (bin : bytes) :
  throws_only codec_error (bin_to_bin T bin).
Proof.
  destruct T; try apply recode_throws;
    (apply throws_only_bind; [apply recode_throws | intros; apply recode_throws]).
Qed.

Lemma bin_to_bin_key_throws (T : cpp_type) (bin : bytes) :
  throws_only codec_error (bin_to_bin_key T bin).
Proof.
  unfold bin_to_bin_key. destruct (is_same_v T varuint32_t).
  - apply throws_only_reverse_bin, throws_only_bind.
    + apply throws_only_lift, read_varuint32_throws.
    + intros r. apply throws_only_bind; [|intros; apply throws_only_ret].
      intros dest e d H. discriminate H.
  - apply throws_only_fixup_key, bin_to_bin_throws.
Qed.

(** ** append_fields *)

(** C9 (as the code has it).  Field extraction.  For a key whose field is
    of a registered type, the body of [append_fields] throws "key ... has
    unknown position" exactly when the byte position of the field is unset,
    and "key position is out of range" exactly when the position is set and
    strictly greater than the length of the payload; in these two failure
    cases the destination is as it was before the field.  (A throw of the
    reader of the type is a third failure case, and can leave bytes
    behind.) *)
Theorem append_field_position_errors
    (src dest : bytes) (k : key) (xform_key : bool) (T : cpp_type) :
  type_obj (key_field k) = make_type_for T ->
  ((exists name d,
       append_field src k xform_key dest = Threw (key_has_unknown_position name) d)
   <-> byte_position (key_field k) = None) /\
  ((exists d, append_field src k xform_key dest = Threw key_position_out_of_range d)
   <-> exists pos, byte_position (key_field k) = Some pos /\ N.of_nat (length src) < pos) /\
  (byte_position (key_field k) = None ->
   append_field src k xform_key dest
   = Threw (key_has_unknown_position (key_name k)) dest) /\
  (forall pos, byte_position (key_field k) = Some pos -> N.of_nat (length src) < pos ->
   append_field src k xform_key dest = Threw key_position_out_of_range dest).
Proof.
  intros HT.
  assert (forall pos e d,
             byte_position (key_field k) = Some pos ->
             (N.of_nat (length src) <? pos) = false ->
             append_field src k xform_key dest = Threw e d -> codec_error e) as Hop.
  { intros pos e d Hp Hr. unfold append_field. rewrite Hp, Hr, HT. cbv zeta.
    apply throws_only_bind; [|intros; apply throws_only_ret].
    destruct xform_key; cbn [type_bin_to_bin_key type_bin_to_bin make_type_for].
    - apply bin_to_bin_key_throws.
    - apply bin_to_bin_throws. }
  assert (byte_position (key_field k) = None ->
          append_field src k xform_key dest
          = Threw (key_has_unknown_position (key_name k)) dest) as Hnone.
  { intros Hp. unfold append_field. now rewrite Hp. }
  assert (forall pos, byte_position (key_field k) = Some pos ->
                      N.of_nat (length src) < pos ->
                      append_field src k xform_key dest
                      = Threw key_position_out_of_range dest) as Hout.
  { intros pos Hp Hlt. unfold append_field. rewrite Hp.
    apply N.ltb_lt in Hlt. now rewrite Hlt. }
  repeat split; try assumption.
  - intros (name & d & H).
    destruct (byte_position (key_field k)) as [pos|] eqn:Hp; [|reflexivity].
    destruct (N.of_nat (length src) <? pos) eqn:Hr.
    + apply N.ltb_lt in Hr. rewrite (Hout pos eq_refl Hr) in H. discriminate H.
    + destruct (Hop pos _ _ eq_refl Hr H) as [E|E]; discriminate E.
  - intros Hp. exists (key_name k), dest. now apply Hnone.
  - intros (d & H).
    destruct (byte_position (key_field k)) as [pos|] eqn:Hp.
    + exists pos. split; [reflexivity|].
      destruct (N.of_nat (length src) <? pos) eqn:Hr; [now apply N.ltb_lt|].
      destruct (Hop pos _ _ eq_refl Hr H) as [E|E]; discriminate E.
    + rewrite (Hnone eq_refl) in H. discriminate H.
  - intros (pos & Hp & Hlt). exists dest. now apply (Hout pos).
Qed.

Lemma append_field_position_errors_witness :
  ((exists name d,
       append_field [x07; x00] (example_key 4) true [x70]
       = Threw (key_has_unknown_position name) d)
   <-> byte_position (key_field (example_key 4)) = None) /\
  ((exists d, append_field [x07; x00] (example_key 4) true [x70]
              = Threw key_position_out_of_range d)
   <-> exists pos, byte_position (key_field (example_key 4)) = Some pos /\
                   N.of_nat (length [x07; x00]) < pos) /\
  (byte_position (key_field (example_key 4)) = None ->
   append_field [x07; x00] (example_key 4) true [x70]
   = Threw (key_has_unknown_position (key_name (example_key 4))) [x70]) /\
  (forall pos, byte_position (key_field (example_key 4)) = Some pos ->
               N.of_nat (length [x07; x00]) < pos ->
               append_field [x07; x00] (example_key 4) true [x70]
               = Threw key_position_out_of_range [x70]).
Proof.
  apply (append_field_position_errors [x07; x00] [x70] (example_key 4) true uint8_t).
  reflexivity.
Defined.

Example append_field_out_of_range :
  append_field [x07; x00] (example_key 2) true [x70]
  = Threw key_position_out_of_range [x70].
Proof. reflexivity. Qed.

(** [append_fields] stops at the first field that throws, with the
    destination as the fields before it left it. *)
Lemma append_fields_app (src : bytes) (done rest : list key) (xform_key : bool)
    (dest : bytes) :
  append_fields src (done ++ rest) xform_key dest
  = match append_fields src done xform_key dest with
    | Done _ d => append_fields src rest xform_key d
    | Threw e d => Threw e d
    end.
Proof.
  revert dest; induction done as [|k done IH]; intros dest; [reflexivity|].
  cbn [app append_fields]. unfold bind.
  destruct (append_field src k xform_key dest); [apply IH | reflexivity].
Qed.

(** ** Copying canonical values *)

Lemma to_char_add_mul (a k : N) : to_char (a + 256 * k) = to_char a.
Proof.
  unfold to_char.
  replace ((a + 256 * k) mod 256) with (a mod 256); [reflexivity|].
  rewrite N.mul_comm. symmetry. apply N.Div0.mod_add.
Qed.

Lemma le_bytes_le_value (bs : bytes) :
  abieos.le_bytes (length bs) (abieos.le_value bs) = bs.
Proof.
  induction bs as [|b r IH]; [reflexivity|].
  cbn [length abieos.le_bytes abieos.le_value].
  rewrite to_char_add_mul, to_char_to_N. f_equal.
  replace ((Byte.to_N b + 256 * abieos.le_value r) / 256) with (abieos.le_value r);
    [exact IH|].
  pose proof (to_N_lt b).
  rewrite N.add_comm, N.mul_comm, N.div_add_l by discriminate.
  rewrite N.div_small by assumption. lia.
Qed.

Lemma bin_to_native_app (T : cpp_type) (a rest : bytes) :
  length a = sizeof T ->
  abieos.bin_to_native T (a ++ rest) = Ok (abieos.le_value a, rest).
Proof.
  intros L. unfold abieos.bin_to_native.
  replace (length (a ++ rest) <? sizeof T)%nat with false
    by (symmetry; apply Nat.ltb_ge; rewrite length_app; lia).
  rewrite <- L. now destruct (firstn_skipn_app_exact a rest) as [-> ->].
Qed.

(** The scalar case of [recode]: the bytes of the value move over as they
    are. *)
Lemma scalar_copy (T : cpp_type) (a rest dest : bytes) :
  length a = sizeof T ->
  (r <- lift (abieos.bin_to_native T (a ++ rest)) ;;
   abieos.native_to_bin T (fst r) ;;; ret (snd r)) dest
  = Done rest (dest ++ a).
Proof.
  intros L. unfold bind. rewrite bin_to_native_app by assumption.
  cbn [lift ret fst snd]. unfold abieos.native_to_bin.
  now rewrite <- L, le_bytes_le_value.
Qed.

Lemma recode_copy (T : cpp_type) (a rest dest : bytes) :
  is_scalar T = true -> length a = sizeof T ->
  abieos.recode T (a ++ rest) dest = Done rest (dest ++ a).
Proof.
  intros HT L.
  destruct T; try discriminate HT; now apply scalar_copy.
Qed.

Lemma bin_to_bin_copy (T : cpp_type) (a rest dest : bytes) :
  is_scalar T = true -> length a = sizeof T ->
  bin_to_bin T (a ++ rest) dest = Done rest (dest ++ a).
Proof.
  intros HT L.
  assert (forall n, length a = (n + n)%nat ->
            (bin1 <- abieos.recode uint64_t (a ++ rest) ;;
             abieos.recode uint64_t bin1) dest = Done rest (dest ++ a) \/ n <> 8%nat)
    as Hhalves.
  { intros n Hn. destruct (Nat.eq_dec n 8) as [->|]; [left | now right].
    rewrite <- (firstn_skipn 8 a) at 1. rewrite <- app_assoc. unfold bind.
    rewrite recode_copy; [|reflexivity | rewrite firstn_length_le; [reflexivity | lia]].
    rewrite recode_copy; [|reflexivity | rewrite length_skipn; cbn [sizeof]; lia].
    now rewrite <- app_assoc, firstn_skipn. }
  destruct T; try discriminate HT; try (now apply recode_copy);
    destruct (Hhalves 8%nat L) as [H|H]; (exact H || now contradiction H).
Qed.

Lemma query_to_bin_key_copy (T : cpp_type) (a rest dest : bytes) :
  range_type_test T = true -> length a = sizeof T ->
  query_to_bin_key T (a ++ rest) dest = Done rest (dest ++ rev a).
Proof.
  intros HT L.
  destruct T; try discriminate HT;
    cbn [query_to_bin_key is_same_v cpp_type_beq];
    unfold fixup_key; cbn [key_type_test is_unsigned_v is_same_v cpp_type_beq orb];
    apply reverse_bin_appends; now apply bin_to_bin_copy.
Qed.

Lemma add_fields_copy (Ts : list cpp_type) (args : list bytes) (rest dest : bytes) :
  Forall (fun T => range_type_test T = true) Ts -> args_of Ts args ->
  add_fields (map make_type_for Ts) (concat args ++ rest) dest
  = Done rest (dest ++ concat (map (@rev byte) args)).
Proof.
  intros HTs Hargs. revert dest.
  induction Hargs as [|T a Ts args L Hargs IH]; intros dest.
  - cbn. now rewrite app_nil_r.
  - inversion HTs as [|? ? HT HTs']; subst.
    cbn [map add_fields concat type_query_to_bin_key make_type_for].
    unfold bind. rewrite <- app_assoc.
    rewrite query_to_bin_key_copy by assumption.
    rewrite (IH HTs'). now rewrite <- app_assoc.
Qed.

Lemma range_bounds_copy (Ts : list cpp_type) (lows highs : list bytes)
    (prefix rest : bytes) :
  Forall (fun T => range_type_test T = true) Ts ->
  args_of Ts lows -> args_of Ts highs ->
  range_bounds (map make_type_for Ts) prefix (concat lows ++ concat highs ++ rest)
  = Ok (prefix ++ concat (map (@rev byte) lows),
        prefix ++ concat (map (@rev byte) highs), rest).
Proof.
  intros HTs Hl Hh. unfold range_bounds.
  rewrite (add_fields_copy Ts lows) by assumption. cbn [local rbind fst snd].
  now rewrite (add_fields_copy Ts highs) by assumption.
Qed.

Lemma make_table_index_key_done (table index : N) :
  make_table_index_key table index
  = Ok ([x70] ++ rev (abieos.le_bytes 8 table) ++ rev (abieos.le_bytes 8 index)).
Proof.
  unfold make_table_index_key, append_table_index_key, bind.
  rewrite (native_to_bin_key_done uint8_t) by reflexivity.
  rewrite (native_to_bin_key_done name_t) by reflexivity.
  rewrite (native_to_bin_key_done name_t) by reflexivity.
  cbn [local rbind snd]. now rewrite <- app_assoc.
Qed.

(** ** query_database: what it reads from the query *)

(** With two range arguments of one byte, the bytes 01 02 03 04 give the
    lower bound 01 02 and the upper bound 03 04; read one range type after
    the other, lower then upper, they would give 01 03 and 02 04. *)
Lemma read_plan_not_interleaved :
  let query_bin :=
    abieos.le_bytes 8 (_n "by.pair") ++ [x01; x02; x03; x04] ++ abieos.le_bytes 4 10 in
  let idx :=
    [x70] ++ rev (abieos.le_bytes 8 (_n "account")) ++ rev (abieos.le_bytes 8 (_n "by.pair")) in
  read_plan (fun _ => Some example_range_query) query_bin 0
  = Ok (make_plan example_range_query 0 (idx ++ [x01; x02]) (idx ++ [x03; x04]) 10) /\
  range_bounds_interleaved (range_types example_range_query) idx idx
                           ([x01; x02; x03; x04] ++ abieos.le_bytes 4 10)
  = Ok (idx ++ [x01; x03], idx ++ [x02; x04], abieos.le_bytes 4 10) /\
  range_bounds (range_types example_range_query) idx
               ([x01; x02; x03; x04] ++ abieos.le_bytes 4 10)
  <> range_bounds_interleaved (range_types example_range_query) idx idx
                              ([x01; x02; x03; x04] ++ abieos.le_bytes 4 10).
Proof.
  cbv zeta. split; [|split].
  - vm_compute. reflexivity.
  - vm_compute. reflexivity.
  - vm_compute. discriminate.
Qed.

(** C2 (as the code has it).  [query_database] reads the name of the
    query, the as-of block when the query limits the block number, then one
    value for each range type in declared order for the lower bound, after
    these one value for each range type in declared order for the upper
    bound, and then the result cap: the range arguments are all lower
    bounds followed by all upper bounds.  Each bound is the index key of the
    table and the query followed by the key forms of its values, and the
    effective cap is the minimum of the cap read and [max_results]. *)
Theorem read_plan_range_layout
    (query_map : N -> option query) (q : query) (Ts : list cpp_type)
    (query_name head asof cap : N) (lows highs : list bytes) (trailing : bytes) :
  query_name < 2 ^ 64 -> asof < 2 ^ 32 -> cap < 2 ^ 32 ->
  query_map query_name = Some q ->
  arg_types q = [] ->
  range_types q = map make_type_for Ts ->
  Forall (fun T => range_type_test T = true) Ts ->
  args_of Ts lows -> args_of Ts highs ->
  let idx := [x70] ++ rev (abieos.le_bytes 8 (short_name (table_obj q)))
                   ++ rev (abieos.le_bytes 8 query_name) in
  read_plan query_map
    (abieos.le_bytes 8 query_name
       ++ (if limit_block_num q then abieos.le_bytes 4 asof else [])
       ++ concat lows ++ concat highs ++ abieos.le_bytes 4 cap ++ trailing)
    head
  = Ok (make_plan q
          (if limit_block_num q then N.min head asof else 0)
          (idx ++ concat (map (@rev byte) lows))
          (idx ++ concat (map (@rev byte) highs))
          (N.min cap (max_results q))).
Proof.
  intros Hname Hasof Hcap Hq Hargs Hrange HTs Hl Hh idx.
  unfold read_plan.
  rewrite bin_to_native_app by apply length_le_bytes.
  cbn [rbind fst snd].
  rewrite le_value_le_bytes, N.mod_small by exact Hname.
  rewrite Hq, Hargs, Hrange, make_table_index_key_done.
  fold idx.
  assert (forall rest,
             abieos.read_raw uint32_t (abieos.le_bytes 4 cap ++ rest) = Ok (cap, rest))
    as Hread.
  { intros rest. unfold abieos.read_raw.
    rewrite bin_to_native_app by apply length_le_bytes.
    now rewrite le_value_le_bytes, N.mod_small by exact Hcap. }
  destruct (limit_block_num q).
  - rewrite bin_to_native_app by apply length_le_bytes.
    cbn [rbind fst snd].
    rewrite le_value_le_bytes, N.mod_small by exact Hasof.
    rewrite range_bounds_copy by assumption.
    cbn [rbind fst snd]. now rewrite Hread.
  - cbn [rbind fst snd app].
    rewrite range_bounds_copy by assumption.
    cbn [rbind fst snd]. now rewrite Hread.
Qed.

Lemma read_plan_range_layout_witness :
  let idx := [x70] ++ rev (abieos.le_bytes 8 (short_name (table_obj example_range_query)))
                   ++ rev (abieos.le_bytes 8 (_n "by.pair")) in
  read_plan (fun _ => Some example_range_query)
    (abieos.le_bytes 8 (_n "by.pair")
       ++ (if limit_block_num example_range_query then abieos.le_bytes 4 0 else [])
       ++ concat [[x01]; [x02]] ++ concat [[x03]; [x04]] ++ abieos.le_bytes 4 10 ++ [])
    0
  = Ok (make_plan example_range_query
          (if limit_block_num example_range_query then N.min 0 0 else 0)
          (idx ++ concat (map (@rev byte) [[x01]; [x02]]))
          (idx ++ concat (map (@rev byte) [[x03]; [x04]]))
          (N.min 10 (max_results example_range_query))).
Proof.
  apply (read_plan_range_layout (fun _ => Some example_range_query) example_range_query
           [uint8_t; uint8_t] (_n "by.pair") 0 0 10 [[x01]; [x02]] [[x03]; [x04]] []);
    try reflexivity; repeat constructor.
Defined.

(** ** append_fields on fixed fields *)

Lemma get_fixed_size_nonzero (T : cpp_type) :
  get_fixed_size T <> 0 ->
  get_fixed_size T = N.of_nat (sizeof T) /\ is_scalar T = true.
Proof. destruct T; cbn; intros H; try (now contradiction H); now split. Qed.



(** ** query_database: the scan *)

Section scan_properties.

Variable subkeys : bytes -> bytes -> list bytes.
Variable entries : bytes -> bytes -> list (bytes * bytes).
Variable Get : bytes -> result bytes.

(** The lambda of the outer scan counts its calls, whatever becomes of the
    row. *)
Lemma subkey_entry_counts (q : query) (max_block_num cap : N) (index_key : bytes)
    (st : list bytes * N) (r : bool * (list bytes * N)) :
  subkey_entry entries Get q max_block_num cap index_key st = Ok r ->
  snd (snd r) = (snd st + 1) mod 2 ^ 32 /\ fst r = (snd (snd r) <? cap).
Proof.
  unfold subkey_entry.
  destruct (limit_block _ _ _); [|discriminate]. cbn [rbind].
  destruct (for_each _ _ _ _ _); [|discriminate]. cbn [rbind].
  intros H. injection H as <-. now split.
Qed.

(** The outer scan ends after [max 1 cap] calls of its lambda. *)
Lemma visit_subkey_entry_count (q : query) (max_block_num cap : N) (items : list bytes) :
  cap < 2 ^ 32 ->
  forall (rows : list bytes) (n : N) (st : list bytes * N),
    n < cap \/ n = 0 ->
    visit items (subkey_entry entries Get q max_block_num cap) (rows, n) = Ok st ->
    snd st = n + N.min (N.of_nat (length items)) (N.max 1 (cap - n)).
Proof.
  intros Hcap. change (2 ^ 32) with 4294967296 in Hcap.
  induction items as [|x items IH]; intros rows n st Hn H.
  - cbn in H. injection H as <-. cbn. lia.
  - cbn [visit] in H.
    destruct (subkey_entry entries Get q max_block_num cap x (rows, n))
      as [[b [rows1 n1]]|] eqn:E; [|discriminate H].
    apply subkey_entry_counts in E. cbn [fst snd] in E. destruct E as [E1 E2].
    change (2 ^ 32) with 4294967296 in E1.
    rewrite N.mod_small in E1 by lia. subst n1.
    cbn [rbind fst snd] in H. rewrite E2 in H.
    cbn [length]. rewrite Nat2N.inj_succ.
    destruct (n + 1 <? cap) eqn:C.
    + apply N.ltb_lt in C. apply IH in H; [|lia]. rewrite H. lia.
    + apply N.ltb_ge in C. injection H as <-. cbn [snd]. lia.
Qed.

(** The groups behind the first [max 1 cap] are not visited. *)
Lemma visit_subkey_entry_firstn (q : query) (max_block_num cap : N) (items : list bytes) :
  cap < 2 ^ 32 ->
  forall (rows : list bytes) (n : N),
    n < cap \/ n = 0 ->
    visit items (subkey_entry entries Get q max_block_num cap) (rows, n)
    = visit (firstn (N.to_nat (N.max 1 (cap - n))) items)
            (subkey_entry entries Get q max_block_num cap) (rows, n).
Proof.
  intros Hcap. change (2 ^ 32) with 4294967296 in Hcap.
  induction items as [|x items IH]; intros rows n Hn.
  - now rewrite firstn_nil.
  - destruct (N.to_nat (N.max 1 (cap - n))) as [|k] eqn:K; [lia|].
    cbn [firstn visit].
    destruct (subkey_entry entries Get q max_block_num cap x (rows, n))
      as [[b [rows1 n1]]|] eqn:E; [|reflexivity].
    apply subkey_entry_counts in E. cbn [fst snd] in E. destruct E as [E1 E2].
    change (2 ^ 32) with 4294967296 in E1.
    rewrite N.mod_small in E1 by lia. subst n1.
    cbn [rbind fst snd]. rewrite E2.
    destruct (n + 1 <? cap) eqn:C; [|reflexivity].
    apply N.ltb_lt in C. rewrite IH by lia.
    replace (N.to_nat (N.max 1 (cap - (n + 1)))) with k by lia.
    reflexivity.
Qed.

(** With a cap of at least one, the scan visits [min groups cap] index
    keys: [num_results] counts the groups, not the rows kept. *)
Lemma scan_cap (p : plan) (st : list bytes * N) :
  1 <= plan_max_results p < 2 ^ 32 ->
  scan subkeys entries Get p = Ok st ->
  snd st = N.min (N.of_nat (length (subkeys (plan_first p) (plan_last p))))
                 (plan_max_results p).
Proof.
  intros [H1 H2] H. unfold scan, for_each_subkey in H.
  apply visit_subkey_entry_count in H; [|assumption | now right].
  rewrite H. lia.
Qed.

(** And the index keys behind the first [cap] are not visited. *)
Lemma scan_firstn (p : plan) :
  1 <= plan_max_results p < 2 ^ 32 ->
  scan subkeys entries Get p
  = visit (firstn (N.to_nat (plan_max_results p))
                  (subkeys (plan_first p) (plan_last p)))
          (subkey_entry entries Get (plan_query p) (plan_max_block_num p)
                        (plan_max_results p))
          ([], 0).
Proof.
  intros [H1 H2]. unfold scan, for_each_subkey.
  rewrite visit_subkey_entry_firstn; [|assumption | now right].
  now replace (N.max 1 (plan_max_results p - 0)) with (plan_max_results p) by lia.
Qed.

(** With a cap of zero the lambda still runs once. *)
Lemma scan_cap_zero (p : plan) (st : list bytes * N) :
  plan_max_results p = 0 ->
  scan subkeys entries Get p = Ok st ->
  snd st = N.min (N.of_nat (length (subkeys (plan_first p) (plan_last p)))) 1.
Proof.
  intros H0 H. unfold scan, for_each_subkey in H. rewrite H0 in H.
  apply visit_subkey_entry_count in H; [|reflexivity | now right].
  rewrite H. lia.
Qed.



End scan_properties.


(** The row that the join leaves: the outer row followed by the four bytes
    of "block_num" of the join row, least significant byte first. *)
Example index_entry_join_row :
  index_entry example_entries example_Get example_join_query 10 [x60] []
  = Ok (false, [example_row ++ [x07; x00; x00; x00]]).
Proof. reflexivity. Qed.

(** The fifth scenario of the specification: the join index has no entry
    for any outer row, so every row is dropped and the result is the empty
    array; the three groups are counted all the same. *)
Example query_database_join_drop :
  let query_bin := abieos.le_bytes 8 (_n "by.name") ++ abieos.le_bytes 4 10 in
  let idx :=
    [x70] ++ rev (abieos.le_bytes 8 (_n "account")) ++ rev (abieos.le_bytes 8 (_n "by.name")) in
  scan example_subkeys example_entries_no_join example_Get
       (make_plan example_join_query 0 idx idx 10) = Ok ([], 3)
  /\ query_database (fun _ => Some example_join_query) example_subkeys
                    example_entries_no_join example_Get query_bin 0
     = Ok [x00].
Proof. cbv zeta. split; vm_compute; reflexivity. Qed.

(** C7, at a cap of zero.  The effective cap is the minimum of the cap read
    from the query and [max_results]; here the query asks for a cap of 0 and
    the range holds three index keys.  The scan nevertheless visits one of
    them, and [query_database] answers with one row: the lambda compares
    [++num_results] with the cap only after it has handled a group. *)
Theorem query_database_cap_zero :
  let query_bin := abieos.le_bytes 8 (_n "by.name") ++ abieos.le_bytes 4 0 in
  let idx :=
    [x70] ++ rev (abieos.le_bytes 8 (_n "account")) ++ rev (abieos.le_bytes 8 (_n "by.name")) in
  let p := make_plan example_query 0 idx idx (N.min 0 (max_results example_query)) in
  read_plan (fun _ => Some example_query) query_bin 0 = Ok p /\
  plan_max_results p = 0 /\
  length (example_subkeys (plan_first p) (plan_last p)) = 3%nat /\
  scan example_subkeys example_entries example_Get p = Ok ([example_row], 1) /\
  query_database (fun _ => Some example_query) example_subkeys example_entries
                 example_Get query_bin 0
  = Ok (abieos.native_to_bin_rows [example_row]).
Proof.
  cbv zeta. repeat split; vm_compute; reflexivity.
Qed.

(** * Further properties *)

(** ** Bound pads *)

Lemma be_value_repeat_00 (w : nat) : be_value (repeat x00 w) = 0.
Proof.
  induction w as [|w IH]; [reflexivity|].
  cbn [repeat be_value]. rewrite IH. cbn. lia.
Qed.

Lemma be_value_repeat_ff (w : nat) : be_value (repeat xff w) + 1 = 256 ^ N.of_nat w.
Proof.
  induction w as [|w IH]; [reflexivity|].
  cbn [repeat be_value]. rewrite repeat_length, pow256_succ.
  change (Byte.to_N xff) with 255. lia.
Qed.

Lemma bytes_le_be_value (a b : bytes) :
  length a = length b -> be_value a <= be_value b -> bytes_le a b.
Proof.
  intros L H. unfold bytes_le. rewrite bytewise_cmp_be_value by assumption.
  intros C. rewrite N.compare_gt_iff in C. lia.
Qed.

(** X1. The pads bracket every key: for a type [T] that the key codec
    accepts and a value [v] of [T], behind one and the same prefix the
    vector that [lower_bound_key] builds sorts at or before the key of [v],
    and the key sorts at or before the vector that [upper_bound_key]
    builds; the three have the same length. *)
Theorem bound_keys_bracket (T : cpp_type) (v : N) (dest : bytes) :
  key_type_test T = true -> fits T v ->
  exists lo k hi,
    lower_bound_key T dest = Done tt lo /\
    native_to_bin_key T v dest = Done tt k /\
    upper_bound_key T dest = Done tt hi /\
    length lo = length k /\ length k = length hi /\
    bytes_le lo k /\ bytes_le k hi.
Proof.
  intros HT Hv.
  exists (dest ++ repeat x00 (sizeof T)),
         (dest ++ rev (abieos.le_bytes (sizeof T) v)),
         (dest ++ repeat xff (sizeof T)).
  unfold lower_bound_key, upper_bound_key. rewrite HT.
  rewrite native_to_bin_key_done by assumption.
  repeat split.
  - rewrite !length_app, repeat_length. key_length.
  - rewrite !length_app, repeat_length. key_length.
  - unfold bytes_le. rewrite bytewise_cmp_prefix.
    apply bytes_le_be_value; [rewrite repeat_length; key_length|].
    rewrite be_value_repeat_00. lia.
  - unfold bytes_le. rewrite bytewise_cmp_prefix.
    apply bytes_le_be_value; [rewrite repeat_length; key_length|].
    rewrite be_value_key by exact Hv.
    pose proof (be_value_repeat_ff (sizeof T)). unfold fits in Hv. lia.
Qed.

Lemma bound_keys_bracket_witness :
  exists lo k hi,
    lower_bound_key uint16_t [x70] = Done tt lo /\
    native_to_bin_key uint16_t 513 [x70] = Done tt k /\
    upper_bound_key uint16_t [x70] = Done tt hi /\
    length lo = length k /\ length k = length hi /\
    bytes_le lo k /\ bytes_le k hi.
Proof.
  apply (bound_keys_bracket uint16_t 513 [x70]); reflexivity.
Defined.

(** ** inc_key and prefix scans *)

Lemma bytewise_cmp_nil_r (c : bytes) : bytewise_cmp c [] <> Lt.
Proof. destruct c; discriminate. Qed.

Lemma bytewise_cmp_nil_l (c : bytes) : bytewise_cmp [] c <> Gt.
Proof. destruct c; discriminate. Qed.

Lemma inc_key_lt (k : bytes) : all_ff k = false -> bytewise_cmp k (inc_key k) = Lt.
Proof.
  intros Hff. pose proof (all_ff_false_be_value k Hff) as Hb.
  rewrite bytewise_cmp_be_value by now rewrite length_inc_key.
  rewrite be_value_inc_key, N.mod_small by assumption.
  apply N.compare_lt_iff. lia.
Qed.

(** X2. The range of a prefix.  For a key [k] that is not all 0xFF, the
    keys at least as long as [k] that lie in the range from [k] (included)
    to [inc_key k] (excluded) are exactly the keys that start with [k]. *)
Theorem inc_key_prefix_range (k x : bytes) :
  all_ff k = false -> (length k <= length x)%nat ->
  (is_prefix k x <-> bytes_le k x /\ bytes_lt x (inc_key k)).
Proof.
  intros Hff Hlen. split.
  - intros [ext ->]. split.
    + unfold bytes_le. rewrite <- (app_nil_r k) at 1.
      rewrite bytewise_cmp_prefix. apply bytewise_cmp_nil_l.
    + unfold bytes_lt. rewrite <- (app_nil_r (inc_key k)).
      rewrite bytewise_cmp_app by now rewrite length_inc_key.
      now rewrite inc_key_lt.
  - intros [Hle Hlt].
    rewrite <- (firstn_skipn (length k) x) in Hle, Hlt.
    assert (length (firstn (length k) x) = length k) as La
        by (rewrite firstn_length_le; [reflexivity | assumption]).
    set (a := firstn (length k) x) in *. set (c := skipn (length k) x) in *.
    unfold bytes_le in Hle. unfold bytes_lt in Hlt.
    rewrite <- (app_nil_r k) in Hle at 1.
    rewrite bytewise_cmp_app in Hle by now rewrite La.
    rewrite <- (app_nil_r (inc_key k)) in Hlt.
    rewrite bytewise_cmp_app in Hlt by now rewrite length_inc_key.
    rewrite (bytewise_cmp_be_value k a) in Hle by now rewrite La.
    rewrite (bytewise_cmp_be_value a (inc_key k)) in Hlt by now rewrite length_inc_key.
    rewrite be_value_inc_key, N.mod_small in Hlt by now apply all_ff_false_be_value.
    assert (be_value k = be_value a) as Heq.
    { destruct (N.compare_spec (be_value k) (be_value a)) as [E|E|E];
        [exact E | | now contradiction Hle].
      destruct (N.compare_spec (be_value a) (be_value k + 1)) as [E'|E'|E'];
        [|lia|discriminate Hlt].
      now apply bytewise_cmp_nil_r in Hlt. }
    assert (k = a) as Hka.
    { apply bytewise_cmp_eq. rewrite bytewise_cmp_be_value by now rewrite La.
      rewrite Heq. apply N.compare_refl. }
    exists c. rewrite Hka. symmetry. apply firstn_skipn.
Qed.

Lemma inc_key_prefix_range_witness :
  is_prefix [x70; x01; xff] [x70; x01; xff; x00; x2a]
  <-> bytes_le [x70; x01; xff] [x70; x01; xff; x00; x2a]
      /\ bytes_lt [x70; x01; xff; x00; x2a] (inc_key [x70; x01; xff]).
Proof.
  apply (inc_key_prefix_range [x70; x01; xff] [x70; x01; xff; x00; x2a]).
  - reflexivity.
  - cbn. lia.
Defined.

(** ** The three encoders of a key *)

(** X3. One key, three ways.  For a type [T] that the key codec accepts and
    a value [v] of [T], [bin_to_bin_key] (the field of a row) and
    [query_to_bin_key] (the argument of a query), applied to the canonical
    form of [v], append the very key that [native_to_bin_key] appends for
    [v], and leave the buffer just behind the value. *)
Theorem key_encoders_agree (T : cpp_type) (v : N) (rest dest : bytes) :
  key_type_test T = true -> fits T v ->
  exists k,
    native_to_bin_key T v dest = Done tt k /\
    bin_to_bin_key T (abieos.le_bytes (sizeof T) v ++ rest) dest = Done rest k /\
    query_to_bin_key T (abieos.le_bytes (sizeof T) v ++ rest) dest = Done rest k.
Proof.
  intros HT Hv. exists (dest ++ rev (abieos.le_bytes (sizeof T) v)).
  split; [now apply native_to_bin_key_done|].
  assert (range_type_test T = true) as HR by (unfold range_type_test; now rewrite HT).
  split; [|apply query_to_bin_key_copy; [assumption | apply length_le_bytes]].
  assert (bin_to_bin_key T = query_to_bin_key T) as ->
      by (destruct T; try discriminate HT; reflexivity).
  apply query_to_bin_key_copy; [assumption | apply length_le_bytes].
Qed.

Lemma key_encoders_agree_witness :
  exists k,
    native_to_bin_key uint128_t 513 [x70] = Done tt k /\
    bin_to_bin_key uint128_t (abieos.le_bytes (sizeof uint128_t) 513 ++ [x2a]) [x70]
    = Done [x2a] k /\
    query_to_bin_key uint128_t (abieos.le_bytes (sizeof uint128_t) 513 ++ [x2a]) [x70]
    = Done [x2a] k.
Proof.
  apply (key_encoders_agree uint128_t 513 [x2a] [x70]); reflexivity.
Defined.

(** X4. [varuint32] as a key.  A row holds a [varuint32] in its variable
    length form and a query passes it as four bytes: [bin_to_bin_key] reads
    the first and [query_to_bin_key] the second, and for one value both
    append the key that [native_to_bin_key] gives the [uint32_t] of that
    value.  The type has no bound pads: [lower_bound_key] and
    [upper_bound_key] throw. *)
Theorem varuint32_key (bin rest rest' dest : bytes) (v : N) :
  abieos.read_varuint32 bin = Ok (v, rest) ->
  exists k,
    native_to_bin_key uint32_t v dest = Done tt k /\
    bin_to_bin_key varuint32_t bin dest = Done rest k /\
    query_to_bin_key varuint32_t (abieos.le_bytes 4 v ++ rest') dest = Done rest' k /\
    lower_bound_key varuint32_t dest = Threw unsupported_key_type dest /\
    upper_bound_key varuint32_t dest = Threw unsupported_key_type dest.
Proof.
  intros Hread. exists (dest ++ rev (abieos.le_bytes 4 v)).
  split; [now apply (native_to_bin_key_done uint32_t)|].
  split; [|split; [|split; reflexivity]].
  - unfold bin_to_bin_key. cbn [is_same_v cpp_type_beq].
    apply reverse_bin_appends. unfold bind. rewrite Hread. reflexivity.
  - apply query_to_bin_key_copy; [reflexivity | apply length_le_bytes].
Qed.

Lemma varuint32_key_witness :
  exists k,
    native_to_bin_key uint32_t 300 [x70] = Done tt k /\
    bin_to_bin_key varuint32_t [xac; x02; x2a] [x70] = Done [x2a] k /\
    query_to_bin_key varuint32_t (abieos.le_bytes 4 300 ++ [x2b]) [x70] = Done [x2b] k /\
    lower_bound_key varuint32_t [x70] = Threw unsupported_key_type [x70] /\
    upper_bound_key varuint32_t [x70] = Threw unsupported_key_type [x70].
Proof.
  apply (varuint32_key [xac; x02; x2a] [x2a] [x2b] [x70] 300). reflexivity.
Defined.

(** ** Short input *)

Lemma recode_short (T : cpp_type) (bin dest : bytes) :
  is_scalar T = true -> (length bin < sizeof T)%nat ->
  abieos.recode T bin dest = Threw abieos_error dest.
Proof.
  intros HT L.
  assert ((r <- lift (abieos.bin_to_native T bin) ;;
           abieos.native_to_bin T (fst r) ;;; ret (snd r)) dest
          = Threw abieos_error dest) as H.
  { unfold bind, abieos.bin_to_native.
    apply Nat.ltb_lt in L. now rewrite L. }
  destruct T; try discriminate HT; exact H.
Qed.

(** X5. A value cut short.  When the buffer holds fewer bytes than the
    value of a key type needs, [bin_to_bin_key] throws the error of the
    reader.  The destination is then as it was, except for [uint128], which
    is read as two halves: when the buffer holds the first half but not the
    second, the first eight bytes stay appended, not reversed. *)
Theorem bin_to_bin_key_short (T : cpp_type) (bin dest : bytes) :
  key_type_test T = true -> (length bin < sizeof T)%nat ->
  bin_to_bin_key T bin dest
  = Threw abieos_error
          (dest ++ if is_same_v T uint128_t && (8 <=? length bin)%nat
                   then firstn 8 bin else []).
Proof.
  intros HT L.
  assert (forall d, bin_to_bin T bin dest = Threw abieos_error d ->
                    bin_to_bin_key T bin dest = Threw abieos_error d) as Hkey.
  { intros d H. unfold bin_to_bin_key.
    replace (is_same_v T varuint32_t) with false
      by (destruct T; try discriminate HT; reflexivity).
    unfold fixup_key. rewrite HT. unfold reverse_bin. now rewrite H. }
  apply Hkey.
  destruct T; try discriminate HT;
    cbn [is_same_v cpp_type_beq andb]; rewrite ?app_nil_r;
    try (apply recode_short; [reflexivity | assumption]).
  cbn [bin_to_bin sizeof] in *. unfold bind.
  destruct (8 <=? length bin)%nat eqn:E.
  - apply Nat.leb_le in E.
    rewrite <- (firstn_skipn 8 bin) at 1.
    rewrite recode_copy; [|reflexivity | rewrite firstn_length_le; [reflexivity|lia]].
    apply recode_short; [reflexivity|]. rewrite length_skipn. cbn [sizeof]. lia.
  - apply Nat.leb_gt in E. rewrite app_nil_r.
    rewrite recode_short; [reflexivity | reflexivity | exact E].
Qed.

Lemma bin_to_bin_key_short_witness :
  bin_to_bin_key uint128_t [x01; x02; x03; x04; x05; x06; x07; x08; x09] [x70]
  = Threw abieos_error
          ([x70] ++ if is_same_v uint128_t uint128_t
                       && (8 <=? length [x01; x02; x03; x04; x05; x06; x07; x08; x09])%nat
                    then firstn 8 [x01; x02; x03; x04; x05; x06; x07; x08; x09] else []).
Proof.
  apply (bin_to_bin_key_short uint128_t
           [x01; x02; x03; x04; x05; x06; x07; x08; x09] [x70]).
  - reflexivity.
  - cbn. lia.
Defined.

(** ** append_fields: key form and the end of the payload *)

Lemma bin_to_bin_key_copy (T : cpp_type) (a rest dest : bytes) :
  key_type_test T = true -> length a = sizeof T ->
  bin_to_bin_key T (a ++ rest) dest = Done rest (dest ++ rev a).
Proof.
  intros HT L.
  assert (bin_to_bin_key T = query_to_bin_key T) as ->
      by (destruct T; try discriminate HT; reflexivity).
  apply query_to_bin_key_copy; [|assumption].
  unfold range_type_test. now rewrite HT.
Qed.

Lemma append_field_key_form (src dest : bytes) (k : key) (T : cpp_type) :
  fixed_in src k T -> key_type_test T = true ->
  append_field src k true dest = Done tt (dest ++ rev (field_slice src k)).
Proof.
  intros (HT & Hsize & pos & Hp & Hle) Hkey.
  destruct (get_fixed_size_nonzero T Hsize) as [Hw Hs].
  unfold append_field, field_slice. rewrite Hp, HT.
  cbn [type_get_fixed_size type_bin_to_bin_key make_type_for].
  replace (N.of_nat (length src) <? pos) with false
    by (symmetry; apply N.ltb_ge; lia).
  rewrite Hw, Nat2N.id. unfold bind.
  rewrite <- (firstn_skipn (sizeof T) (skipn (N.to_nat pos) src)) at 1.
  rewrite bin_to_bin_key_copy; [reflexivity | assumption |].
  rewrite firstn_length_le; [reflexivity|].
  rewrite length_skipn. lia.
Qed.

(** X6. Join keys.  With [xform_key] set, [append_fields] appends for
    every key whose field is of a key type and lies within the payload the
    bytes of that field in reverse order, one field after the other. *)
Theorem append_fields_key_form (src : bytes) (keys : list key) (dest : bytes) :
  Forall (fun k => exists T, fixed_in src k T /\ key_type_test T = true) keys ->
  append_fields src keys true dest
  = Done tt (dest ++ concat (map (fun k => rev (field_slice src k)) keys)).
Proof.
  intros H. revert dest. induction H as [|k keys [T [HT HK]] _ IH]; intros dest.
  - cbn. now rewrite app_nil_r.
  - cbn [append_fields map concat]. unfold bind.
    rewrite (append_field_key_form src dest k T HT HK), IH.
    now rewrite <- app_assoc.
Qed.

Lemma append_fields_key_form_witness :
  append_fields example_row [example_key 2; example_key 0] true [x70]
  = Done tt ([x70] ++ concat (map (fun k => rev (field_slice example_row k))
                                  [example_key 2; example_key 0])).
Proof.
  apply (append_fields_key_form example_row [example_key 2; example_key 0] [x70]).
  repeat constructor.
  - exists name_t. split; [|reflexivity].
    split; [reflexivity|]. split; [discriminate|].
    exists 5. split; [reflexivity|]. vm_compute. discriminate.
  - exists uint32_t. split; [|reflexivity].
    split; [reflexivity|]. split; [discriminate|].
    exists 0. split; [reflexivity|]. vm_compute. discriminate.
Defined.

(** X7. A field that cannot be a key.  With [xform_key] set, a key whose
    field is of a registered type outside the key codec ([varuint32]
    apart), at a position within the payload, makes [append_fields] throw
    "unsupported key type"; nothing is appended for it, whatever the
    payload holds. *)
Theorem append_field_unsupported_key
    (src dest : bytes) (k : key) (T : cpp_type) (pos : N) :
  type_obj (key_field k) = make_type_for T ->
  key_type_test T = false -> T <> varuint32_t ->
  byte_position (key_field k) = Some pos -> pos <= N.of_nat (length src) ->
  append_field src k true dest = Threw unsupported_key_type dest.
Proof.
  intros HT Hkey Hvar Hp Hle. unfold append_field. rewrite Hp, HT.
  replace (N.of_nat (length src) <? pos) with false
    by (symmetry; apply N.ltb_ge; lia).
  cbn [type_bin_to_bin_key make_type_for]. unfold bind, bin_to_bin_key.
  replace (is_same_v T varuint32_t) with false
    by (destruct T; try reflexivity; now contradiction Hvar).
  now rewrite fixup_key_threw.
Qed.

Lemma append_field_unsupported_key_witness :
  append_field example_row
    (make_key "creation_date"
       (make_field "creation_date" (make_type_for block_timestamp_t) (Some 5)))
    true [x70]
  = Threw unsupported_key_type [x70].
Proof.
  apply (append_field_unsupported_key example_row [x70] _ block_timestamp_t 5);
    try reflexivity; try discriminate.
Defined.

(** X8. A field at the end of the payload.  The range test of
    [append_fields] lets a position pass that is not behind the end of the
    payload; when the payload is too short for the value there (so also for
    a position exactly at the end), the reader of the type throws its own
    error, and for a scalar type other than the 128-bit integers nothing is
    appended. *)
Theorem append_field_short_payload
    (src dest : bytes) (k : key) (T : cpp_type) (pos : N) :
  type_obj (key_field k) = make_type_for T ->
  is_scalar T = true -> T <> uint128_t -> T <> int128_t ->
  byte_position (key_field k) = Some pos ->
  pos <= N.of_nat (length src) ->
  N.of_nat (length src) < pos + N.of_nat (sizeof T) ->
  append_field src k false dest = Threw abieos_error dest.
Proof.
  intros HT Hs H128 Hi128 Hp Hle Hshort. unfold append_field. rewrite Hp, HT.
  replace (N.of_nat (length src) <? pos) with false
    by (symmetry; apply N.ltb_ge; lia).
  cbn [type_bin_to_bin make_type_for]. unfold bind.
  assert (length (skipn (N.to_nat pos) src) < sizeof T)%nat as L
      by (rewrite length_skipn; lia).
  assert (bin_to_bin T (skipn (N.to_nat pos) src) dest = Threw abieos_error dest) as ->;
    [|reflexivity].
  destruct T; try discriminate Hs;
    try (now contradiction H128); try (now contradiction Hi128);
    apply recode_short; (reflexivity || assumption).
Qed.

Lemma append_field_short_payload_witness :
  append_field [x07; x00; x00; x00; x01]
    (make_key "name" (make_field "name" (make_type_for name_t) (Some 5)))
    false [x70]
  = Threw abieos_error [x70].
Proof.
  apply (append_field_short_payload [x07; x00; x00; x00; x01] [x70] _ name_t 5);
    try reflexivity; try discriminate.
Defined.

(** ** The catalog: which tables prepare, and what stays *)

(** X9. Unknown tables.  The loop over the tables succeeds exactly when the
    name of every table is in the dictionary of short names, and then keeps
    the number of tables; otherwise it throws "unknown table" with the name
    of the first table that is not. *)
Theorem prepare_tables_unknown_table (tabs : list table) :
  match prepare_tables tabs with
  | Ok tabs' =>
      Forall (fun t => find table_names (table_name t) <> None) tabs /\
      length tabs' = length tabs
  | Throw e =>
      exists before tab after,
        tabs = before ++ tab :: after /\
        Forall (fun t => find table_names (table_name t) <> None) before /\
        find table_names (table_name tab) = None /\
        e = unknown_table (table_name tab)
  end.
Proof.
  induction tabs as [|t rest IH]; cbn [prepare_tables].
  - split; [constructor | reflexivity].
  - unfold prepare_table at 1.
    destruct (find table_names (table_name t)) as [n|] eqn:E; cbn [rbind].
    + destruct (prepare_tables rest) as [rest'|e]; cbn [rbind].
      * destruct IH as [IH1 IH2]. split.
        -- constructor; [congruence | assumption].
        -- cbn. now rewrite IH2.
      * destruct IH as (before & tab & after & -> & Hb & Hn & ->).
        exists (t :: before), tab, after.
        split; [reflexivity|]. split; [|split; [assumption | reflexivity]].
        constructor; [congruence | assumption].
    + exists [], t, rest.
      split; [reflexivity|]. split; [constructor|]. split; [assumption | reflexivity].
Qed.

Lemma prepare_fields_idempotent (fs : list field) (pos : N) :
  prepare_fields pos (prepare_fields pos fs) = prepare_fields pos fs.
Proof.
  revert pos; induction fs as [|f rest IH]; intros pos; [reflexivity|].
  cbn [prepare_fields].
  destruct (type_get_fixed_size (type_obj f) =? 0) eqn:E;
    cbn [prepare_fields field_name type_obj]; rewrite E; [reflexivity|].
  now rewrite IH.
Qed.

(** X10. Preparing twice.  The loop over the tables applied to tables that
    it has prepared gives those tables again: the short names and the byte
    positions are settled by the first run. *)
Theorem prepare_tables_idempotent (tabs tabs' : list table) :
  prepare_tables tabs = Ok tabs' -> prepare_tables tabs' = Ok tabs'.
Proof.
  revert tabs'; induction tabs as [|t rest IH]; intros tabs' H; cbn in H.
  - now injection H as <-.
  - unfold prepare_table in H.
    destruct (find table_names (table_name t)) as [n|] eqn:E; [|discriminate H].
    cbn [rbind] in H.
    destruct (prepare_tables rest) as [rest'|] eqn:Er; [|discriminate H].
    cbn [rbind] in H. injection H as <-.
    cbn [prepare_tables]. unfold prepare_table at 1.
    cbn [table_name fields]. rewrite E, prepare_fields_idempotent.
    cbn [rbind]. now rewrite (IH rest' eq_refl).
Qed.

Lemma prepare_tables_idempotent_witness :
  prepare_tables [example_account_prepared] = Ok [example_account_prepared].
Proof.
  apply (prepare_tables_idempotent [example_account] [example_account_prepared]).
  reflexivity.
Defined.

Lemma prepare_fields_names (fs : list field) (pos : N) :
  map field_name (prepare_fields pos fs) = map field_name fs.
Proof.
  revert pos; induction fs as [|f rest IH]; intros pos; [reflexivity|].
  cbn [prepare_fields].
  destruct (type_get_fixed_size (type_obj f) =? 0); cbn; [reflexivity|].
  f_equal. apply IH.
Qed.

(** X11. What [prepare] leaves alone.  The tables that the loop returns are
    the tables it was given, in their order, with their names, the names of
    their fields and the fixed sizes of their fields unchanged; each has the
    short name that the dictionary gives its name. *)
Theorem prepare_tables_keeps_schema (tabs tabs' : list table) :
  prepare_tables tabs = Ok tabs' ->
  Forall2
    (fun t t' =>
       table_name t' = table_name t /\
       map field_name (fields t') = map field_name (fields t) /\
       fixed_sizes (fields t') = fixed_sizes (fields t) /\
       find table_names (table_name t) = Some (short_name t'))
    tabs tabs'.
Proof.
  revert tabs'; induction tabs as [|t rest IH]; intros tabs' H; cbn in H.
  - injection H as <-. constructor.
  - unfold prepare_table in H.
    destruct (find table_names (table_name t)) as [n|] eqn:E; [|discriminate H].
    cbn [rbind] in H.
    destruct (prepare_tables rest) as [rest'|] eqn:Er; [|discriminate H].
    cbn [rbind] in H. injection H as <-.
    constructor; [|now apply IH].
    cbn [table_name fields short_name].
    now rewrite prepare_fields_names, fixed_sizes_prepare_fields.
Qed.

Lemma prepare_tables_keeps_schema_witness :
  Forall2
    (fun t t' =>
       table_name t' = table_name t /\
       map field_name (fields t') = map field_name (fields t) /\
       fixed_sizes (fields t') = fixed_sizes (fields t) /\
       find table_names (table_name t) = Some (short_name t'))
    [example_account] [example_account_prepared].
Proof.
  apply (prepare_tables_keeps_schema [example_account] [example_account_prepared]).
  reflexivity.
Defined.

(** ** From prepare to append_fields *)

(** Where [prepare] puts the fields of a table of fixed fields, within a
    payload that holds one canonical value for each. *)
Lemma prepare_fields_layout (fs : list field) (Ts : list cpp_type) :
  Forall2 (fun f T => type_obj f = make_type_for T) fs Ts ->
  Forall (fun T => get_fixed_size T <> 0) Ts ->
  forall (args : list bytes) (pos : N),
    args_of Ts args ->
    pos + N.of_nat (length (concat args)) < 2 ^ 32 ->
    forall (i : nat) (f : field) (a : bytes) (T : cpp_type),
      nth_error (prepare_fields pos fs) i = Some f ->
      nth_error args i = Some a ->
      nth_error Ts i = Some T ->
      type_obj f = make_type_for T /\ length a = sizeof T /\
      exists before after,
        concat args = before ++ a ++ after /\
        byte_position f = Some (pos + N.of_nat (length before)).
Proof.
  induction 1 as [|f0 T0 fs Ts HT0 _ IH]; intros Hfix args pos Hargs Hfit i f a T Hf Ha HT.
  - destruct i; discriminate HT.
  - inversion Hfix as [|? ? Hsize Hfix']; subst.
    inversion Hargs as [|? a0 ? args' L Hargs']; subst.
    destruct (get_fixed_size_nonzero T0 Hsize) as [Hw _].
    cbn [prepare_fields] in Hf. rewrite HT0 in Hf.
    cbn [type_get_fixed_size make_type_for] in Hf.
    replace (get_fixed_size T0 =? 0) with false in Hf
      by (symmetry; now apply N.eqb_neq).
    cbn [concat] in Hfit. rewrite length_app in Hfit.
    destruct i as [|i].
    + cbn in Hf, Ha, HT. injection Hf as <-. injection Ha as <-. injection HT as <-.
      cbn [type_obj byte_position]. repeat split; try assumption.
      exists [], (concat args'). split; [reflexivity|]. cbn. now rewrite N.add_0_r.
    + cbn [nth_error] in Hf, Ha, HT.
      rewrite Hw, <- L in Hf.
      change (2 ^ 32) with 4294967296 in *.
      rewrite N.mod_small in Hf by lia.
      destruct (IH Hfix' args' (pos + N.of_nat (length a0)) Hargs'
                   ltac:(lia) i f a T Hf Ha HT)
        as (H1 & H2 & before & after & Hc & Hp).
      repeat split; try assumption.
      exists (a0 ++ before), after. split.
      * cbn [concat]. rewrite Hc. now rewrite <- app_assoc.
      * rewrite Hp, length_app. f_equal. lia.
Qed.

(** X12. The positions fit the payload.  Take a table whose fields are all
    of fixed size and a payload that holds one canonical value for each
    field, in order, maybe followed by more.  After the loop of [prepare],
    [append_fields] with a key on the field at index [i] appends exactly the
    bytes of the value at index [i]; with [xform_key] set and a key type,
    it appends them in reverse order. *)
Theorem prepared_field_extract
    (fs : list field) (Ts : list cpp_type) (args : list bytes) (tail dest : bytes)
    (i : nat) (f : field) (a : bytes) (T : cpp_type) (name : string) :
  Forall2 (fun f T => type_obj f = make_type_for T) fs Ts ->
  Forall (fun T => get_fixed_size T <> 0) Ts ->
  args_of Ts args ->
  N.of_nat (length (concat args)) < 2 ^ 32 ->
  nth_error (prepare_fields 0 fs) i = Some f ->
  nth_error args i = Some a ->
  nth_error Ts i = Some T ->
  append_fields (concat args ++ tail) [make_key name f] false dest = Done tt (dest ++ a)
  /\ (key_type_test T = true ->
      append_fields (concat args ++ tail) [make_key name f] true dest
      = Done tt (dest ++ rev a)).
Proof.
  intros Hfs Hfix Hargs Hfit Hf Ha HT.
  destruct (prepare_fields_layout fs Ts Hfs Hfix args 0 Hargs Hfit i f a T Hf Ha HT)
    as (Hty & L & before & after & Hc & Hp).
  cbn [N.add] in Hp.
  assert (skipn (length before) (concat args ++ tail) = a ++ (after ++ tail)) as Hskip.
  { rewrite Hc, <- !app_assoc.
    now destruct (firstn_skipn_app_exact before (a ++ after ++ tail)) as [_ ->]. }
  assert ((N.of_nat (length (concat args ++ tail)) <? N.of_nat (length before)) = false)
    as Hrange.
  { apply N.ltb_ge. rewrite Hc, !length_app. lia. }
  split; [|intros Hkey];
    cbn [append_fields]; unfold bind, append_field;
    cbn [key_field key_name]; rewrite Hp, Hrange, Hty, Nat2N.id, Hskip;
    cbn [type_bin_to_bin type_bin_to_bin_key make_type_for]; unfold bind.
  - destruct (get_fixed_size_nonzero T) as [_ Hs].
    { rewrite Forall_forall in Hfix. apply Hfix. eapply nth_error_In, HT. }
    now rewrite bin_to_bin_copy.
  - now rewrite bin_to_bin_key_copy.
Qed.

Lemma prepared_field_extract_witness :
  append_fields
    (concat [[x07; x00; x00; x00]; [x01];
             [x00; x00; x00; x00; x00; x5c; x1a; x34]] ++ [x00; x00])
    [make_key "name" (make_field "name" (make_type_for name_t) (Some 5))] false [x70]
  = Done tt ([x70] ++ [x00; x00; x00; x00; x00; x5c; x1a; x34])
  /\ (key_type_test name_t = true ->
      append_fields
        (concat [[x07; x00; x00; x00]; [x01];
                 [x00; x00; x00; x00; x00; x5c; x1a; x34]] ++ [x00; x00])
        [make_key "name" (make_field "name" (make_type_for name_t) (Some 5))] true [x70]
      = Done tt ([x70] ++ rev [x00; x00; x00; x00; x00; x5c; x1a; x34])).
Proof.
  apply (prepared_field_extract
           (firstn 3 (fields example_account)) [uint32_t; bool_t; name_t]
           [[x07; x00; x00; x00]; [x01]; [x00; x00; x00; x00; x00; x5c; x1a; x34]]
           [x00; x00] [x70] 2 _ _ name_t "name").
  - repeat constructor.
  - repeat constructor; discriminate.
  - repeat constructor.
  - reflexivity.
  - reflexivity.
  - reflexivity.
  - reflexivity.
Defined.

(** ** The key space: families and blocks *)

(** The bytes of a chain of keys: each [native_to_bin_key] on a key type
    gives its reversed canonical form. *)
Ltac key_layout :=
  unfold built, bind, insert_end;
  repeat rewrite native_to_bin_key_done by reflexivity;
  cbn [local rbind fst snd];
  rewrite <- ?app_assoc.

Lemma bytes_le_extension (p e : bytes) : bytes_le p (p ++ e).
Proof.
  unfold bytes_le. rewrite <- (app_nil_r p) at 1.
  rewrite bytewise_cmp_prefix. apply bytewise_cmp_nil_l.
Qed.

Lemma make_block_key_done (block : N) :
  make_block_key block = Ok ([x20] ++ rev (abieos.le_bytes 4 block)).
Proof. unfold make_block_key. key_layout. reflexivity. Qed.

Lemma per_block_key_prefix (block : N) (k : bytes) :
  per_block_key block k ->
  exists ext, k = [x20] ++ rev (abieos.le_bytes 4 block) ++ ext.
Proof.
  unfold per_block_key, make_received_block_key, make_table_row_key,
    make_block_info_key, append_transaction_trace_key, append_action_trace_key,
    append_delta_key_1, append_delta_key.
  intros [H | [(r & rest & H & ->) | [H | [(tid & H) | [(tid & ai & H)
         | [(d & rest & H & ->) | (present & table & d & rest & H & ->)]]]]]];
    revert H; key_layout; intros H; injection H as <-;
    rewrite <- ?app_assoc; cbn [app]; eexists; reflexivity.
Qed.

Lemma bytewise_cmp_block (m n : N) (e1 e2 : bytes) :
  m < 2 ^ 32 -> n < 2 ^ 32 -> m <> n ->
  bytewise_cmp ([x20] ++ rev (abieos.le_bytes 4 m) ++ e1)
               ([x20] ++ rev (abieos.le_bytes 4 n) ++ e2)
  = (m ?= n).
Proof.
  intros Hm Hn Hne. rewrite bytewise_cmp_prefix, bytewise_cmp_app by key_length.
  rewrite bytewise_cmp_be_value by key_length.
  rewrite !be_value_key by assumption.
  destruct (N.compare_spec m n); [now contradiction Hne | reflexivity | reflexivity].
Qed.

(** X13. Blocks in key order.  Every key of the per-block families (received
    block, table row, block info, transaction trace, action trace, table
    delta) of a block [m] sorts strictly before every such key of a later
    block [n], whatever the tables and primary keys. *)
Theorem per_block_keys_order (m n : N) (k1 k2 : bytes) :
  m < n -> n < 2 ^ 32 ->
  per_block_key m k1 -> per_block_key n k2 ->
  bytes_lt k1 k2.
Proof.
  intros Hmn Hn H1 H2.
  destruct (per_block_key_prefix m k1 H1) as [e1 ->].
  destruct (per_block_key_prefix n k2 H2) as [e2 ->].
  unfold bytes_lt. rewrite bytewise_cmp_block by lia.
  now apply N.compare_lt_iff.
Qed.

Lemma per_block_keys_order_witness :
  bytes_lt [x20; x00; x00; x00; x0a; x30]
           [x20; x00; x00; x00; x0b; x50; x2a].
Proof.
  apply (per_block_keys_order 10 11); try reflexivity.
  - left. reflexivity.
  - right. left. exists [x20; x00; x00; x00; x0b; x50], [x2a]. split; reflexivity.
Defined.

(** X14. The range of the blocks from [n] on.  A key of the per-block
    families of a block [b] sorts at or after [make_block_key(n)] exactly
    when [b] is at least [n]: the range that starts at [make_block_key(n)]
    holds the data of the blocks from [n] on and of no earlier block. *)
Theorem make_block_key_lower_bound (n b : N) (k : bytes) :
  n < 2 ^ 32 -> b < 2 ^ 32 -> per_block_key b k ->
  exists lo, make_block_key n = Ok lo /\ (bytes_le lo k <-> n <= b).
Proof.
  intros Hn Hb Hk. eexists. split; [apply make_block_key_done|].
  destruct (per_block_key_prefix b k Hk) as [e ->].
  unfold bytes_le.
  destruct (N.eq_dec n b) as [->|Hne].
  - split; [lia|]. intros _. rewrite app_assoc. apply bytes_le_extension.
  - rewrite <- (app_nil_r (rev (abieos.le_bytes 4 n))).
    rewrite bytewise_cmp_block by assumption.
    destruct (N.compare_spec n b); split; intros H'; try lia; try discriminate.
    now contradiction H'.
Qed.

Lemma make_block_key_lower_bound_witness :
  exists lo, make_block_key 11 = Ok lo
             /\ (bytes_le lo [x20; x00; x00; x00; x0c; x30] <-> 11 <= 12).
Proof.
  apply (make_block_key_lower_bound 11 12); try reflexivity.
  left. reflexivity.
Defined.

Lemma bytewise_cmp_head (x y : byte) (a b : bytes) :
  Byte.to_N x < Byte.to_N y -> bytewise_cmp (x :: a) (y :: b) = Lt.
Proof.
  intros H. cbn [bytewise_cmp]. apply N.compare_lt_iff in H. now rewrite H.
Qed.

(** X15. The families in key order.  The fill-status key sorts before every
    key of the per-block families, these sort before every key that starts
    with a table-index key, and those before every index back-reference:
    the tags keep the families apart in the one key space. *)
Theorem key_families_order
    (block : N) (kb : bytes) (table index ref_block : N)
    (ext table_key table_index_key : bytes) :
  per_block_key block kb ->
  exists kf ki kr,
    make_fill_status_key = Ok kf /\
    make_table_index_key table index = Ok ki /\
    make_table_index_ref_key ref_block table_key table_index_key = Ok kr /\
    bytes_lt kf kb /\ bytes_lt kb (ki ++ ext) /\ bytes_lt (ki ++ ext) kr.
Proof.
  intros Hk. destruct (per_block_key_prefix block kb Hk) as [e ->].
  do 3 eexists.
  split; [reflexivity|]. split; [apply make_table_index_key_done|].
  split; [unfold make_table_index_ref_key; key_layout; reflexivity|].
  repeat split; apply bytewise_cmp_head; reflexivity.
Qed.

Lemma key_families_order_witness :
  exists kf ki kr,
    make_fill_status_key = Ok kf /\
    make_table_index_key (_n "account") (_n "by.name") = Ok ki /\
    make_table_index_ref_key 12 [x20; x00; x00; x00; x0c; x50] [x70] = Ok kr /\
    bytes_lt kf [x20; x00; x00; x00; x0c; x30] /\
    bytes_lt [x20; x00; x00; x00; x0c; x30] (ki ++ [x2a]) /\
    bytes_lt (ki ++ [x2a]) kr.
Proof.
  apply (key_families_order 12 [x20; x00; x00; x00; x0c; x30]).
  left. reflexivity.
Defined.

(** X16. Index back-references.  The key of a back-reference is the key of
    its block followed by the key of the table row and the key of the index
    entry; the keys of a block [m] sort strictly before those of a later
    block [n], and a back-reference of a block [b] sorts at or after
    [make_table_index_ref_key(n)] exactly when [b] is at least [n]. *)
Theorem make_table_index_ref_key_order
    (m n : N) (tk1 ik1 tk2 ik2 : bytes) :
  m < 2 ^ 32 -> n < 2 ^ 32 ->
  exists r1 r2 k1 k2,
    make_table_index_ref_key_1 m = Ok r1 /\
    make_table_index_ref_key_1 n = Ok r2 /\
    make_table_index_ref_key_2 m tk1 = Ok (r1 ++ tk1) /\
    make_table_index_ref_key m tk1 ik1 = Ok k1 /\ k1 = r1 ++ tk1 ++ ik1 /\
    make_table_index_ref_key n tk2 ik2 = Ok k2 /\ k2 = r2 ++ tk2 ++ ik2 /\
    (m < n -> bytes_lt k1 k2) /\
    (bytes_le r2 k1 <-> n <= m).
Proof.
  intros Hm Hn.
  exists ([x80] ++ rev (abieos.le_bytes 4 m)), ([x80] ++ rev (abieos.le_bytes 4 n)),
         ([x80] ++ rev (abieos.le_bytes 4 m) ++ tk1 ++ ik1),
         ([x80] ++ rev (abieos.le_bytes 4 n) ++ tk2 ++ ik2).
  unfold make_table_index_ref_key_1, make_table_index_ref_key_2,
    make_table_index_ref_key.
  key_layout.
  repeat (split; [reflexivity|]).
  assert (forall e1 e2, m <> n ->
            bytewise_cmp ([x80] ++ rev (abieos.le_bytes 4 m) ++ e1)
                         ([x80] ++ rev (abieos.le_bytes 4 n) ++ e2) = (m ?= n)) as Hcmp.
  { intros e1 e2 Hne.
    rewrite bytewise_cmp_prefix, bytewise_cmp_app by key_length.
    rewrite bytewise_cmp_be_value by key_length.
    rewrite !be_value_key by assumption.
    destruct (N.compare_spec m n); [now contradiction Hne | reflexivity | reflexivity]. }
  split.
  - intros Hlt. unfold bytes_lt. rewrite Hcmp by lia.
    now apply N.compare_lt_iff.
  - unfold bytes_le.
    destruct (N.eq_dec m n) as [->|Hne].
    + split; [lia|]. intros _. rewrite app_assoc. apply bytes_le_extension.
    + rewrite <- (app_nil_r (rev (abieos.le_bytes 4 n))).
      assert (bytewise_cmp ([x80] ++ rev (abieos.le_bytes 4 n) ++ [])
                           ([x80] ++ rev (abieos.le_bytes 4 m) ++ tk1 ++ ik1)
              = (n ?= m)) as ->.
      { rewrite bytewise_cmp_prefix, bytewise_cmp_app by key_length.
        rewrite bytewise_cmp_be_value by key_length.
        rewrite !be_value_key by assumption.
        destruct (N.compare_spec n m); [subst; now contradiction Hne | reflexivity | reflexivity]. }
      destruct (N.compare_spec n m); split; intros H'; try lia; try discriminate.
      now contradiction H'.
Qed.

Lemma make_table_index_ref_key_order_witness :
  exists r1 r2 k1 k2,
    make_table_index_ref_key_1 11 = Ok r1 /\
    make_table_index_ref_key_1 12 = Ok r2 /\
    make_table_index_ref_key_2 11 [x20] = Ok (r1 ++ [x20]) /\
    make_table_index_ref_key 11 [x20] [x70] = Ok k1 /\ k1 = r1 ++ [x20] ++ [x70] /\
    make_table_index_ref_key 12 [x21] [x71] = Ok k2 /\ k2 = r2 ++ [x21] ++ [x71] /\
    (11 < 12 -> bytes_lt k1 k2) /\
    (bytes_le r2 k1 <-> 12 <= 11).
Proof.
  apply (make_table_index_ref_key_order 11 12 [x20] [x70] [x21] [x71]); reflexivity.
Defined.

(** ** The as-of bound of a state index *)

(** X17. The as-of bound.  For a state table, [query_database] starts the
    scan of a group at the index key followed by the inverted
    [max_block_num].  Behind one and the same index key, the entry of a
    block [b] sorts strictly after that bound exactly when [b] is at most
    [max_block_num], and strictly before it exactly when [b] is later,
    whatever its [present] flag; for a table without state the bound is the
    index key itself. *)
Theorem limit_block_order (index_key : bytes) (max_block_num b : N) (present : bool) :
  max_block_num < 2 ^ 32 -> b < 2 ^ 32 ->
  exists lim k,
    limit_block true max_block_num index_key = Ok lim /\
    append_table_index_state_suffix b present index_key = Done tt k /\
    (bytes_lt lim k <-> b <= max_block_num) /\
    (bytewise_cmp lim k = Gt <-> max_block_num < b) /\
    limit_block false max_block_num index_key = Ok index_key.
Proof.
  intros Hm Hb.
  exists (index_key ++ rev (abieos.le_bytes 4 (N.lnot max_block_num 32))),
         ((index_key ++ rev (abieos.le_bytes 4 (N.lnot b 32)))
            ++ [to_char (N.b2n (negb present))]).
  split; [unfold limit_block, append_table_index_state_suffix_block;
          rewrite native_to_bin_key_done by reflexivity; reflexivity|].
  split; [apply append_table_index_state_suffix_done|].
  unfold bytes_lt.
  rewrite <- (app_nil_r (rev (abieos.le_bytes 4 (N.lnot max_block_num 32)))).
  rewrite <- !app_assoc, bytewise_cmp_prefix, bytewise_cmp_app by key_length.
  rewrite bytewise_cmp_be_value by key_length.
  rewrite !lnot32 by assumption.
  change (2 ^ 32) with 4294967296 in *.
  rewrite !be_value_key by (change (256 ^ N.of_nat 4) with 4294967296; lia).
  split; [|split; [|reflexivity]];
    destruct (N.compare_spec (4294967295 - max_block_num) (4294967295 - b));
    cbn [bytewise_cmp]; split; intros H'; try lia; try discriminate; reflexivity.
Qed.

Lemma limit_block_order_witness :
  exists lim k,
    limit_block true 10 [x70] = Ok lim /\
    append_table_index_state_suffix 8 false [x70] = Done tt k /\
    (bytes_lt lim k <-> 8 <= 10) /\
    (bytewise_cmp lim k = Gt <-> 10 < 8) /\
    limit_block false 10 [x70] = Ok [x70].
Proof.
  apply (limit_block_order [x70] 10 8 false); reflexivity.
Defined.

(** ** Reading keys back *)

Lemma bin_to_native_key_done (T : cpp_type) (v : N) (rest : bytes) :
  key_type_test T = true -> fits T v ->
  bin_to_native_key T (rev (abieos.le_bytes (sizeof T) v) ++ rest) = Ok (v, rest).
Proof.
  intros HT Hv. unfold bin_to_native_key. rewrite HT.
  assert (length (rev (abieos.le_bytes (sizeof T) v)) = sizeof T) as L by key_length.
  replace (length (rev (abieos.le_bytes (sizeof T) v) ++ rest) <? sizeof T)%nat
    with false by (symmetry; apply Nat.ltb_ge; rewrite length_app; lia).
  destruct (firstn_skipn_app_exact (rev (abieos.le_bytes (sizeof T) v)) rest) as [F S].
  rewrite L in F, S. cbv zeta. rewrite F, S, rev_involutive.
  rewrite <- (app_nil_r (abieos.le_bytes (sizeof T) v)).
  rewrite bin_to_native_app by apply length_le_bytes.
  cbn [rbind fst]. now rewrite le_value_le_bytes, N.mod_small by exact Hv.
Qed.

Lemma bin_to_key_tag_cons (c : byte) (rest : bytes) :
  bin_to_key_tag (c :: rest) = Ok (Byte.to_N c, rest).
Proof.
  unfold bin_to_key_tag, abieos.bin_to_native. cbn. now rewrite N.add_0_r.
Qed.

Lemma string_append_assoc (a b c : string) :
  ((a ++ b) ++ c = a ++ b ++ c)%string.
Proof.
  induction a as [|x a IH]; [reflexivity|]. cbn. now rewrite IH.
Qed.

Section key_to_string_properties.

Variable to_string_uint32 : N -> string.
Variable name_to_string : N -> string.
Variable hex : bytes -> string.

(** X18. [key_to_string] and malformed keys.  On the empty buffer
    [key_to_string] throws the error of the reader, since the first tag is
    read outside the [try] block; on every other buffer it returns a text,
    and for a key that starts with the block tag but holds fewer than the
    four bytes of the block number the text is "block (deserialize
    error)". *)
Theorem key_to_string_total :
  key_to_string to_string_uint32 name_to_string hex [] = Throw abieos_error
  /\ (forall b, b <> [] ->
        exists s, key_to_string to_string_uint32 name_to_string hex b = Ok s)
  /\ (forall b, (length b < 4)%nat ->
        key_to_string to_string_uint32 name_to_string hex (x20 :: b)
        = Ok "block (deserialize error)"%string).
Proof.
  split; [reflexivity|]. split.
  - intros [|c rest] Hb; [now contradiction Hb|].
    unfold key_to_string. rewrite bin_to_key_tag_cons. cbn [rbind fst snd].
    repeat match goal with
           | |- context [match ?x with _ => _ end] => destruct x
           end; eexists; reflexivity.
  - intros b L. unfold key_to_string. rewrite bin_to_key_tag_cons.
    cbn [rbind fst snd]. change (Byte.to_N x20 =? key_tag.block) with true.
    cbv iota. unfold bin_to_native_key. cbn [key_type_test is_unsigned_v orb sizeof].
    apply Nat.ltb_lt in L. rewrite L. reflexivity.
Qed.

(** X19. [key_to_string] on the keys of rows and deltas.  For the key of a
    table delta as [append_delta_key] builds it, followed by any primary
    key, [key_to_string] shows the block number, "table_delta", the table
    and the [present] flag that went into the key and the primary key in
    hex; likewise, with "table_row", for the key of [make_table_row_key]
    followed by the key of a table name and a primary key. *)
Theorem key_to_string_row_and_delta
    (block table : N) (present : bool) (pk : bytes) :
  block < 2 ^ 32 -> table < 2 ^ 64 ->
  exists d r t,
    append_delta_key block present table [] = Done tt d /\
    key_to_string to_string_uint32 name_to_string hex (d ++ pk)
    = Ok ("block " ++ to_string_uint32 block ++ " table_delta '"
            ++ name_to_string table ++ "' present: "
            ++ (if present then "true" else "false") ++ " " ++ hex pk)%string /\
    make_table_row_key block = Ok r /\
    native_to_bin_key name_t table r = Done tt t /\
    key_to_string to_string_uint32 name_to_string hex (t ++ pk)
    = Ok ("block " ++ to_string_uint32 block ++ " table_row '"
            ++ name_to_string table ++ "' " ++ hex pk)%string.
Proof.
  intros Hb Ht.
  exists ([x20] ++ rev (abieos.le_bytes 4 block) ++ [x60]
            ++ rev (abieos.le_bytes 8 table) ++ rev (abieos.le_bytes 1 (N.b2n present))),
         ([x20] ++ rev (abieos.le_bytes 4 block) ++ [x50]),
         ([x20] ++ rev (abieos.le_bytes 4 block) ++ [x50] ++ rev (abieos.le_bytes 8 table)).
  assert (fits bool_t (N.b2n present)) as Hp by (destruct present; reflexivity).
  split; [unfold append_delta_key; key_layout; reflexivity|].
  split; [|split; [unfold make_table_row_key; key_layout; reflexivity|split]].
  - unfold key_to_string. cbn [app]. rewrite bin_to_key_tag_cons.
    cbn [rbind fst snd]. change (Byte.to_N x20 =? key_tag.block) with true. cbv iota.
    rewrite <- !app_assoc.
    rewrite (bin_to_native_key_done uint32_t) by (reflexivity || assumption).
    cbn [app]. rewrite bin_to_key_tag_cons.
    change (Byte.to_N x60 =? key_tag.table_row) with false.
    change (Byte.to_N x60 =? key_tag.table_delta) with true. cbv iota.
    rewrite <- ?app_assoc.
    rewrite (bin_to_native_key_done name_t) by (reflexivity || assumption).
    rewrite (bin_to_native_key_done bool_t) by (reflexivity || assumption).
    change (to_string (Byte.to_N x20)) with "block"%string.
    change (to_string (Byte.to_N x60)) with "table_delta"%string.
    rewrite !string_append_assoc.
    destruct present; reflexivity.
  - rewrite native_to_bin_key_done by reflexivity.
    now rewrite <- !app_assoc.
  - unfold key_to_string. cbn [app]. rewrite bin_to_key_tag_cons.
    cbn [rbind fst snd]. change (Byte.to_N x20 =? key_tag.block) with true. cbv iota.
    rewrite <- !app_assoc.
    rewrite (bin_to_native_key_done uint32_t) by (reflexivity || assumption).
    cbn [app]. rewrite bin_to_key_tag_cons.
    change (Byte.to_N x50 =? key_tag.table_row) with true. cbv iota.
    rewrite <- ?app_assoc.
    rewrite (bin_to_native_key_done name_t) by (reflexivity || assumption).
    change (to_string (Byte.to_N x20)) with "block"%string.
    change (to_string (Byte.to_N x50)) with "table_row"%string.
    rewrite !string_append_assoc.
    reflexivity.
Qed.

End key_to_string_properties.

Lemma key_to_string_row_and_delta_witness :
  exists d r t,
    append_delta_key 12 true (_n "account") [] = Done tt d /\
    key_to_string (fun _ => "12"%string) (fun _ => "account"%string)
                  (fun _ => "2A"%string) (d ++ [x2a])
    = Ok ("block " ++ "12" ++ " table_delta '" ++ "account" ++ "' present: "
            ++ (if true then "true" else "false") ++ " " ++ "2A")%string /\
    make_table_row_key 12 = Ok r /\
    native_to_bin_key name_t (_n "account") r = Done tt t /\
    key_to_string (fun _ => "12"%string) (fun _ => "account"%string)
                  (fun _ => "2A"%string) (t ++ [x2a])
    = Ok ("block " ++ "12" ++ " table_row '" ++ "account" ++ "' " ++ "2A")%string.
Proof.
  apply (key_to_string_row_and_delta
           (fun _ => "12"%string) (fun _ => "account"%string) (fun _ => "2A"%string)
           12 (_n "account") true [x2a]); reflexivity.
Defined.

(** ** query_database: what it refuses *)

(** X20. Refused queries.  [query_database] throws before it touches the
    store: the error of the reader when the buffer is too short for the
    name of the query, "unknown query" when the name is not in the query
    map, "not implemented" when the query declares argument types, and the
    error of the reader when the query limits the block number and the
    buffer ends before the four bytes of the as-of block. *)
Theorem query_database_refuses
    (query_map : N -> option query)
    (subkeys : bytes -> bytes -> list bytes)
    (entries : bytes -> bytes -> list (bytes * bytes))
    (Get : bytes -> result bytes) (head : N) :
  (forall query_bin, (length query_bin < 8)%nat ->
     query_database query_map subkeys entries Get query_bin head = Throw abieos_error)
  /\
  (forall query_name rest, query_name < 2 ^ 64 ->
     query_map query_name = None ->
     query_database query_map subkeys entries Get
                    (abieos.le_bytes 8 query_name ++ rest) head
     = Throw (unknown_query query_name))
  /\
  (forall query_name rest q, query_name < 2 ^ 64 ->
     query_map query_name = Some q -> arg_types q <> [] ->
     query_database query_map subkeys entries Get
                    (abieos.le_bytes 8 query_name ++ rest) head
     = Throw (query_not_implemented query_name))
  /\
  (forall query_name rest q, query_name < 2 ^ 64 ->
     query_map query_name = Some q -> arg_types q = [] ->
     limit_block_num q = true -> (length rest < 4)%nat ->
     query_database query_map subkeys entries Get
                    (abieos.le_bytes 8 query_name ++ rest) head
     = Throw abieos_error).
Proof.
  assert (forall query_name rest, query_name < 2 ^ 64 ->
            abieos.bin_to_native name_t (abieos.le_bytes 8 query_name ++ rest)
            = Ok (query_name, rest)) as Hname.
  { intros query_name rest Hn.
    rewrite bin_to_native_app by apply length_le_bytes.
    now rewrite le_value_le_bytes, N.mod_small by exact Hn. }
  repeat split.
  - intros query_bin L. unfold query_database, read_plan, abieos.bin_to_native.
    apply Nat.ltb_lt in L. cbn [sizeof]. now rewrite L.
  - intros query_name rest Hn Hq. unfold query_database, read_plan.
    rewrite Hname by assumption. cbn [rbind fst snd]. now rewrite Hq.
  - intros query_name rest q Hn Hq Hargs. unfold query_database, read_plan.
    rewrite Hname by assumption. cbn [rbind fst snd]. rewrite Hq.
    destruct (arg_types q); [now contradiction Hargs | reflexivity].
  - intros query_name rest q Hn Hq Hargs Hlimit L. unfold query_database, read_plan.
    rewrite Hname by assumption. cbn [rbind fst snd]. rewrite Hq, Hargs, Hlimit.
    unfold abieos.bin_to_native at 1. cbn [sizeof].
    apply Nat.ltb_lt in L. now rewrite L.
Qed.

(** X21. A range type outside the key codec.  When the types before it
    have read their arguments, a range type that [query_to_bin_key] does
    not accept makes [add_fields] throw "unsupported key type", whatever
    the query still holds; the bound keeps the keys appended so far. *)
Theorem add_fields_unsupported_range_type
    (Ts : list cpp_type) (T : cpp_type) (more : list type) (args : list bytes)
    (rest dest : bytes) :
  Forall (fun T => range_type_test T = true) Ts -> args_of Ts args ->
  range_type_test T = false ->
  add_fields (map make_type_for Ts ++ make_type_for T :: more)
             (concat args ++ rest) dest
  = Threw unsupported_key_type (dest ++ concat (map (@rev byte) args)).
Proof.
  intros HTs Hargs HT. revert dest.
  induction Hargs as [|T0 a Ts args L Hargs IH]; intros dest.
  - cbn [map app add_fields concat type_query_to_bin_key make_type_for].
    unfold bind, query_to_bin_key.
    replace (is_same_v T varuint32_t) with false
      by (destruct T; try reflexivity; discriminate HT).
    rewrite fixup_key_threw; [now rewrite app_nil_r|].
    destruct T; try reflexivity; discriminate HT.
  - inversion HTs as [|? ? HT0 HTs']; subst.
    cbn [map app add_fields concat type_query_to_bin_key make_type_for].
    unfold bind. rewrite <- app_assoc.
    rewrite query_to_bin_key_copy by assumption.
    rewrite (IH HTs'). now rewrite <- app_assoc.
Qed.

Lemma add_fields_unsupported_range_type_witness :
  add_fields (map make_type_for [uint8_t] ++ make_type_for int64_t :: [])
             (concat [[x01]] ++ [x02]) [x70]
  = Threw unsupported_key_type ([x70] ++ concat (map (@rev byte) [[x01]])).
Proof.
  apply (add_fields_unsupported_range_type [uint8_t] int64_t [] [[x01]] [x02] [x70]).
  - repeat constructor.
  - repeat constructor.
  - reflexivity.
Defined.

(** ** query_database: the rows of the scan *)

Section scan_rows.

Variable subkeys : bytes -> bytes -> list bytes.
Variable entries : bytes -> bytes -> list (bytes * bytes).
Variable Get : bytes -> result bytes.

(** Each entry of the index adds at most one row behind the rows collected
    so far, and ends the scan of its group. *)
Lemma index_entry_rows (q : query) (max_block_num : N) (delta_key : bytes)
    (rows : list bytes) (r : bool * list bytes) :
  index_entry entries Get q max_block_num delta_key rows = Ok r ->
  fst r = false /\ exists new, snd r = rows ++ new /\ (length new <= 1)%nat.
Proof.
  unfold index_entry.
  destruct (Get delta_key) as [dv|]; [|discriminate]. cbn [rbind].
  destruct (join_table q) as [jt|].
  - destruct (join_range q jt max_block_num dv) as [jr|]; [|discriminate].
    cbn [rbind].
    destruct (for_each entries (fst jr) (snd jr) _ _) as [st|]; [|discriminate].
    cbn [rbind]. rewrite removelast_last.
    destruct (fst st); intros H; injection H as <-; (split; [reflexivity|]).
    + exists [snd st]. split; [reflexivity | cbn; lia].
    + exists []. split; [now rewrite app_nil_r | cbn; lia].
  - intros H. injection H as <-. split; [reflexivity|].
    exists [dv]. split; [reflexivity | cbn; lia].
Qed.

Lemma subkey_entry_rows (q : query) (max_block_num cap : N) (index_key : bytes)
    (st : list bytes * N) (r : bool * (list bytes * N)) :
  subkey_entry entries Get q max_block_num cap index_key st = Ok r ->
  exists new, fst (snd r) = fst st ++ new /\ (length new <= 1)%nat.
Proof.
  unfold subkey_entry.
  destruct (limit_block _ _ _) as [lim|]; [|discriminate]. cbn [rbind].
  unfold for_each.
  destruct (entries lim index_key) as [|e more]; cbn [visit rbind].
  - intros H. injection H as <-. exists []. split; [now rewrite app_nil_r | cbn; lia].
  - destruct (index_entry entries Get q max_block_num (snd e) (fst st)) as [r'|] eqn:E;
      [|discriminate].
    apply index_entry_rows in E. destruct E as [E1 (new & E2 & E3)].
    cbn [rbind]. rewrite E1. cbn [rbind].
    intros H. injection H as <-. exists new. now split.
Qed.

Lemma visit_subkey_entry_rows (q : query) (max_block_num cap : N) (items : list bytes) :
  cap < 2 ^ 32 ->
  forall (rows : list bytes) (n : N) (st : list bytes * N),
    n < cap \/ n = 0 ->
    visit items (subkey_entry entries Get q max_block_num cap) (rows, n) = Ok st ->
    exists new, fst st = rows ++ new /\ N.of_nat (length new) <= snd st - n.
Proof.
  intros Hcap. change (2 ^ 32) with 4294967296 in Hcap.
  induction items as [|x items IH]; intros rows n st Hn H.
  - cbn in H. injection H as <-. exists []. split; [now rewrite app_nil_r | cbn; lia].
  - pose proof (visit_subkey_entry_count entries Get q max_block_num cap (x :: items)
                  Hcap rows n st Hn H) as Hcount.
    cbn [visit] in H.
    destruct (subkey_entry entries Get q max_block_num cap x (rows, n))
      as [[b [rows1 n1]]|] eqn:E; [|discriminate H].
    pose proof (subkey_entry_rows _ _ _ _ _ _ E) as (new1 & Hr1 & Hl1).
    apply subkey_entry_counts in E. cbn [fst snd] in E, Hr1. destruct E as [E1 E2].
    change (2 ^ 32) with 4294967296 in E1.
    rewrite N.mod_small in E1 by lia. subst n1 rows1.
    cbn [rbind fst snd] in H. rewrite E2 in H.
    destruct (n + 1 <? cap) eqn:C.
    + apply N.ltb_lt in C.
      pose proof (visit_subkey_entry_count entries Get q max_block_num cap items
                    Hcap _ _ st (or_introl C) H) as Hcount'.
      apply IH in H; [|lia]. destruct H as (new & Hst & Hl).
      exists (new1 ++ new). split; [now rewrite Hst, app_assoc|].
      rewrite length_app. lia.
    + injection H as <-. cbn [fst snd]. exists new1. split; [reflexivity | lia].
Qed.

(** X22. No more rows than groups.  When the scan of [query_database]
    ends, the number of rows is at most [num_results], the number of index
    keys it has visited; that number is at most the number of index keys
    in the range and at most the result cap, or one when the cap is zero. *)
Theorem scan_rows_bound (p : plan) (rows : list bytes) (num_results : N) :
  plan_max_results p < 2 ^ 32 ->
  scan subkeys entries Get p = Ok (rows, num_results) ->
  N.of_nat (length rows) <= num_results /\
  num_results <= N.of_nat (length (subkeys (plan_first p) (plan_last p))) /\
  num_results <= N.max 1 (plan_max_results p).
Proof.
  intros Hcap H. unfold scan, for_each_subkey in H.
  pose proof (visit_subkey_entry_count entries Get _ _ _ _ Hcap [] 0 _
                (or_intror eq_refl) H) as Hcount.
  apply visit_subkey_entry_rows in H; [|assumption | now right].
  destruct H as (new & Hst & Hl). cbn [fst snd app] in *. subst new.
  lia.
Qed.

(** The rows of a query without a join, for a store that holds a value
    behind every key. *)
Lemma visit_subkey_entry_plain (q : query) (max_block_num cap : N)
    (value : bytes -> bytes) (items : list bytes) :
  join_table q = None -> (forall k, Get k = Ok (value k)) ->
  cap < 2 ^ 32 ->
  forall (rows : list bytes) (n : N),
    n < cap \/ n = 0 ->
    exists n',
      visit items (subkey_entry entries Get q max_block_num cap) (rows, n)
      = Ok (rows ++ flat_map
                      (fun g =>
                         match limit_block (is_state q) max_block_num g with
                         | Ok lim => first_row entries value lim g
                         | Throw _ => []
                         end)
                      (firstn (N.to_nat (N.max 1 (cap - n))) items),
            n').
Proof.
  intros Hjoin Hget Hcap. change (2 ^ 32) with 4294967296 in Hcap.
  induction items as [|x items IH]; intros rows n Hn.
  - exists n. rewrite firstn_nil. cbn. now rewrite app_nil_r.
  - destruct (N.to_nat (N.max 1 (cap - n))) as [|k] eqn:K; [lia|].
    cbn [firstn flat_map visit]. unfold subkey_entry at 1.
    assert (exists lim, limit_block (is_state q) max_block_num x = Ok lim) as [lim Hlim].
    { unfold limit_block, append_table_index_state_suffix_block.
      destruct (is_state q); [|eexists; reflexivity].
      rewrite native_to_bin_key_done by reflexivity. eexists; reflexivity. }
    rewrite Hlim. cbn [rbind fst snd].
    assert (for_each entries lim x
              (fun e => index_entry entries Get q max_block_num (snd e)) rows
            = Ok (rows ++ first_row entries value lim x)) as ->.
    { unfold for_each, first_row.
      destruct (entries lim x) as [|e more]; cbn [visit];
        [now rewrite app_nil_r|].
      unfold index_entry. rewrite Hget, Hjoin. reflexivity. }
    cbn [rbind fst snd].
    change (2 ^ 32) with 4294967296. rewrite N.mod_small by lia.
    destruct (n + 1 <? cap) eqn:C.
    + apply N.ltb_lt in C.
      destruct (IH (rows ++ first_row entries value lim x) (n + 1) ltac:(lia))
        as [n' Hn'].
      exists n'. rewrite Hn'.
      replace (N.to_nat (N.max 1 (cap - (n + 1)))) with k by lia.
      now rewrite <- app_assoc.
    + apply N.ltb_ge in C. exists (n + 1).
      assert (k = 0%nat) as -> by lia.
      cbn [firstn flat_map]. now rewrite app_nil_r.
Qed.

(** X23. The rows of a query without a join.  On a store that holds a
    value behind every key of the index, the scan of a query without a join
    returns, in the order of the index keys, the value behind the first
    entry of each of the first [max 1 cap] index keys, and nothing for an
    index key whose scan has no entry. *)
Theorem scan_plain_query (p : plan) (value : bytes -> bytes) :
  join_table (plan_query p) = None ->
  (forall k, Get k = Ok (value k)) ->
  plan_max_results p < 2 ^ 32 ->
  exists num_results,
    scan subkeys entries Get p
    = Ok (flat_map
            (fun g =>
               match limit_block (is_state (plan_query p)) (plan_max_block_num p) g with
               | Ok lim => first_row entries value lim g
               | Throw _ => []
               end)
            (firstn (N.to_nat (N.max 1 (plan_max_results p)))
                    (subkeys (plan_first p) (plan_last p))),
          num_results).
Proof.
  intros Hjoin Hget Hcap. unfold scan, for_each_subkey.
  destruct (visit_subkey_entry_plain (plan_query p) (plan_max_block_num p)
              (plan_max_results p) value (subkeys (plan_first p) (plan_last p))
              Hjoin Hget Hcap [] 0 (or_intror eq_refl)) as [n' H].
  exists n'. rewrite H. cbn [app]. now rewrite N.sub_0_r.
Qed.

End scan_rows.

Lemma scan_rows_bound_witness :
  N.of_nat (length [example_row; example_row]) <= 2 /\
  2 <= N.of_nat (length (example_subkeys
                           (plan_first (make_plan example_query 0 [x70] [x70] 2))
                           (plan_last (make_plan example_query 0 [x70] [x70] 2)))) /\
  2 <= N.max 1 (plan_max_results (make_plan example_query 0 [x70] [x70] 2)).
Proof.
  apply (scan_rows_bound example_subkeys example_entries example_Get
           (make_plan example_query 0 [x70] [x70] 2) [example_row; example_row] 2).
  - reflexivity.
  - vm_compute. reflexivity.
Defined.

Lemma scan_plain_query_witness :
  exists num_results,
    scan example_subkeys example_entries example_Get
         (make_plan example_query 0 [x70] [x70] 2)
    = Ok (flat_map
            (fun g =>
               match limit_block (is_state example_query) 0 g with
               | Ok lim => first_row example_entries (fun _ => example_row) lim g
               | Throw _ => []
               end)
            (firstn (N.to_nat (N.max 1 2)) (example_subkeys [x70] [x70])),
          num_results).
Proof.
  apply (scan_plain_query example_subkeys example_entries example_Get
           (make_plan example_query 0 [x70] [x70] 2) (fun _ => example_row)).
  - reflexivity.
  - intros k. reflexivity.
  - reflexivity.
Defined.

(** ** The block id of a received block *)

Lemma make_received_block_key_done (block : N) :
  make_received_block_key block = Ok ([x20] ++ rev (abieos.le_bytes 4 block) ++ [x30]).
Proof. unfold make_received_block_key. key_layout. reflexivity. Qed.

(** X24. Writing and reading a received block.  After a write of the
    canonical form of a received block under the key of its block number,
    [get_block_id] returns its block id for that number and what it
    returned before for every other block number; for a block number whose
    key the store does not hold it returns nothing. *)
Theorem get_block_id_put (db : database) (n m id : N) :
  n < 2 ^ 32 -> m < 2 ^ 32 -> id < 2 ^ 256 ->
  exists key,
    make_received_block_key n = Ok key /\
    let db' := put key (native_to_bin_received_block (make_received_block n id)) db in
    get_block_id db' n = Ok (Some id) /\
    (m <> n -> get_block_id db' m = get_block_id db m) /\
    (db key = None -> get_block_id db n = Ok None).
Proof.
  intros Hn Hm Hid. eexists. split; [apply make_received_block_key_done|].
  cbv zeta. unfold get_block_id. rewrite !make_received_block_key_done.
  cbn [rbind]. unfold rdb_get, put. repeat split.
  - rewrite bytewise_cmp_refl. unfold bin_to_native_received_block,
      native_to_bin_received_block. cbn [block_num block_id].
    rewrite bin_to_native_app by apply length_le_bytes. cbn [rbind fst snd].
    rewrite <- (app_nil_r (abieos.le_bytes 32 id)).
    rewrite bin_to_native_app by apply length_le_bytes. cbn [rbind fst snd].
    rewrite !le_value_le_bytes.
    rewrite (N.mod_small n) by exact Hn.
    rewrite (N.mod_small id) by exact Hid. reflexivity.
  - intros Hne. rewrite bytewise_cmp_block by (assumption || congruence).
    destruct (N.compare_spec n m); [subst; now contradiction Hne | reflexivity | reflexivity].
  - intros Hnone. now rewrite Hnone.
Qed.

Lemma get_block_id_put_witness :
  exists key,
    make_received_block_key 12 = Ok key /\
    let db' := put key (native_to_bin_received_block (make_received_block 12 513))
                   (fun _ => None) in
    get_block_id db' 12 = Ok (Some 513) /\
    (11 <> 12 -> get_block_id db' 11 = get_block_id (fun _ => None) 11) /\
    ((fun _ : bytes => @None bytes) key = None ->
     get_block_id (fun _ => None) 12 = Ok None).
Proof.
  apply (get_block_id_put (fun _ => None) 12 11 513); reflexivity.
Defined.

(** ** Values are copied, fields compose *)

(** X25. Values are not re-encoded.  For a scalar type [T] (every
    registered type but [varuint32], [string] and [bytes]), [bin_to_bin]
    moves the [sizeof(T)] bytes of the value from the buffer to the
    destination as they are, also for the 128-bit integers, which it reads
    as two halves; and the fixed size that the catalog uses for the byte
    positions, when it is not zero, is that number of bytes. *)
Theorem bin_to_bin_scalar (T : cpp_type) (a rest dest : bytes) :
  is_scalar T = true -> length a = sizeof T ->
  bin_to_bin T (a ++ rest) dest = Done rest (dest ++ a)
  /\ (get_fixed_size T <> 0 -> get_fixed_size T = N.of_nat (length a)).
Proof.
  intros HT L. split; [now apply bin_to_bin_copy|].
  intros Hsize. rewrite L. now apply get_fixed_size_nonzero.
Qed.

Lemma bin_to_bin_scalar_witness :
  bin_to_bin int128_t
    ([x01; x02; x03; x04; x05; x06; x07; x08; x09; x0a; x0b; x0c; x0d; x0e; x0f; x10]
       ++ [x2a]) [x70]
  = Done [x2a]
         ([x70] ++ [x01; x02; x03; x04; x05; x06; x07; x08;
                    x09; x0a; x0b; x0c; x0d; x0e; x0f; x10])
  /\ (get_fixed_size int128_t <> 0 ->
      get_fixed_size int128_t
      = N.of_nat (length [x01; x02; x03; x04; x05; x06; x07; x08;
                          x09; x0a; x0b; x0c; x0d; x0e; x0f; x10])).
Proof.
  apply (bin_to_bin_scalar int128_t
           [x01; x02; x03; x04; x05; x06; x07; x08; x09; x0a; x0b; x0c; x0d; x0e; x0f; x10]
           [x2a] [x70]); reflexivity.
Defined.

(** X26. [append_fields] field by field.  [append_fields] over two lists of
    keys one after the other is [append_fields] over the first list
    followed by [append_fields] over the second on the destination that the
    first left; when the first throws, the second list is not looked at and
    the destination stays as the first left it. *)
Theorem append_fields_compose
    (src : bytes) (keys1 keys2 : list key) (xform_key : bool) (dest : bytes) :
  append_fields src (keys1 ++ keys2) xform_key dest
  = match append_fields src keys1 xform_key dest with
    | Done _ d => append_fields src keys2 xform_key d
    | Threw e d => Threw e d
    end.
Proof.
  revert dest; induction keys1 as [|k keys1 IH]; intros dest; [reflexivity|].
  cbn [app append_fields]. unfold bind.
  destruct (append_field src k xform_key dest) as [u d|e d]; [apply IH | reflexivity].
Qed.

(** ** The join: its range, and a field without a position *)

Section join_properties.

Variable entries : bytes -> bytes -> list (bytes * bytes).
Variable Get : bytes -> result bytes.

(** X27. The range of the join.  When the fields of [join_key_values] are
    of key types and lie within the row, the scan of the join index runs
    over the index key of the join table and the join query followed by
    those fields of the row in key form; for a join with a state table the
    scan starts at that key followed by the inverted [max_block_num]. *)
Theorem join_range_keys
    (q : query) (jt : table) (max_block_num : N) (delta_value : bytes) :
  Forall (fun k => exists T, fixed_in delta_value k T /\ key_type_test T = true)
         (join_key_values q) ->
  let join_key :=
    [x70] ++ rev (abieos.le_bytes 8 (short_name jt))
          ++ rev (abieos.le_bytes 8 (join_query_wasm_name q))
          ++ concat (map (fun k => rev (field_slice delta_value k)) (join_key_values q)) in
  join_range q jt max_block_num delta_value
  = Ok (if join_query_is_state q
        then join_key ++ rev (abieos.le_bytes 4 (N.lnot max_block_num 32))
        else join_key,
        join_key).
Proof.
  intros Hkeys join_key. unfold join_range.
  rewrite make_table_index_key_done. cbn [rbind].
  rewrite append_fields_key_form by assumption. cbn [local rbind snd].
  unfold limit_block, append_table_index_state_suffix_block.
  subst join_key. rewrite <- !app_assoc.
  destruct (join_query_is_state q); [|reflexivity].
  rewrite native_to_bin_key_done by reflexivity. cbn [local rbind snd].
  now rewrite <- !app_assoc.
Qed.

(** X28. A join on a field without a position.  For a query with a join
    table whose first join key is on a field without a byte position (a
    field behind the first field of size zero), the lambda throws "key ...
    has unknown position" for every outer row that the store returns: such
    a query never yields a row. *)
Theorem index_entry_join_key_unknown_position
    (q : query) (jt : table) (max_block_num : N) (delta_key delta_value : bytes)
    (rows : list bytes) (k : key) (more : list key) :
  join_table q = Some jt ->
  join_key_values q = k :: more ->
  byte_position (key_field k) = None ->
  Get delta_key = Ok delta_value ->
  index_entry entries Get q max_block_num delta_key rows
  = Throw (key_has_unknown_position (key_name k)).
Proof.
  intros Hjt Hkeys Hpos Hget. unfold index_entry.
  rewrite Hget. cbn [rbind]. rewrite Hjt. unfold join_range.
  rewrite make_table_index_key_done. cbn [rbind]. rewrite Hkeys.
  cbn [append_fields]. unfold bind, append_field. now rewrite Hpos.
Qed.

End join_properties.

Lemma join_range_keys_witness :
  let join_key :=
    [x70] ++ rev (abieos.le_bytes 8 (short_name example_account_prepared))
          ++ rev (abieos.le_bytes 8 (join_query_wasm_name example_join_query))
          ++ concat (map (fun k => rev (field_slice example_row k))
                         (join_key_values example_join_query)) in
  join_range example_join_query example_account_prepared 10 example_row
  = Ok (if join_query_is_state example_join_query
        then join_key ++ rev (abieos.le_bytes 4 (N.lnot 10 32))
        else join_key,
        join_key).
Proof.
  apply (join_range_keys example_join_query example_account_prepared 10 example_row).
  repeat constructor. exists name_t. split; [|reflexivity].
  split; [reflexivity|]. split; [discriminate|].
  exists 5. split; [reflexivity|]. vm_compute. discriminate.
Defined.

Lemma index_entry_join_key_unknown_position_witness :
  index_entry example_entries example_Get
    (make_query [] [] false 100 false example_account_prepared
                (Some example_account_prepared) (_n "by.vm")
                [example_key 4] true [example_key 0])
    10 [x60] []
  = Throw (key_has_unknown_position (key_name (example_key 4))).
Proof.
  apply (index_entry_join_key_unknown_position example_entries example_Get
           _ example_account_prepared 10 [x60] example_row [] (example_key 4) []);
    reflexivity.
Defined.

Lemma key_to_string_total_witness :
  key_to_string (fun _ => "12"%string) (fun _ => "account"%string)
                (fun _ => "2A"%string) []
  = Throw abieos_error
  /\ (exists s, key_to_string (fun _ => "12"%string) (fun _ => "account"%string)
                              (fun _ => "2A"%string) [x10; x2a] = Ok s)
  /\ key_to_string (fun _ => "12"%string) (fun _ => "account"%string)
                   (fun _ => "2A"%string) (x20 :: [x00; x00])
     = Ok "block (deserialize error)"%string.
Proof.
  destruct (key_to_string_total (fun _ => "12"%string) (fun _ => "account"%string)
              (fun _ => "2A"%string)) as (H1 & H2 & H3).
  split; [exact H1|]. split.
  - apply H2. discriminate.
  - apply H3. cbn. lia.
Defined.

Lemma query_database_refuses_witness :
  query_database (fun _ => None) example_subkeys example_entries example_Get
                 [x01; x02] 0
  = Throw abieos_error
  /\ query_database (fun _ => None) example_subkeys example_entries example_Get
                    (abieos.le_bytes 8 (_n "by.name") ++ [x0a; x00; x00; x00]) 0
     = Throw (unknown_query (_n "by.name"))
  /\ query_database
       (fun _ => Some (make_query [make_type_for uint8_t] [] false 100 false
                                  example_account_prepared None 0 [] false []))
       example_subkeys example_entries example_Get
       (abieos.le_bytes 8 (_n "by.name") ++ [x0a; x00; x00; x00]) 0
     = Throw (query_not_implemented (_n "by.name"))
  /\ query_database
       (fun _ => Some (make_query [] [] true 100 true
                                  example_account_prepared None 0 [] false []))
       example_subkeys example_entries example_Get
       (abieos.le_bytes 8 (_n "by.name") ++ [x0a; x00]) 0
     = Throw abieos_error.
Proof.
  split; [|split; [|split]].
  - apply (proj1 (query_database_refuses (fun _ => None) example_subkeys
                    example_entries example_Get 0)).
    cbn. lia.
  - apply (proj1 (proj2 (query_database_refuses (fun _ => None) example_subkeys
                           example_entries example_Get 0)));
      reflexivity.
  - eapply (proj1 (proj2 (proj2 (query_database_refuses _ example_subkeys
                                    example_entries example_Get 0))));
      [reflexivity | reflexivity | discriminate].
  - eapply (proj2 (proj2 (proj2 (query_database_refuses _ example_subkeys
                                    example_entries example_Get 0))));
      try reflexivity. cbn. lia.
Defined.

(** * The order of digests, and the failures of a field *)




(** A field of type [uint128] at position 0 of a payload of nine bytes: the
    position is set and within the payload, the reader of the type throws
    after its first half, and eight bytes stay appended to the destination. *)
Lemma append_field_uint128_half_appended :
  let src := [x01; x02; x03; x04; x05; x06; x07; x08; x09] in
  let k := make_key "balance"
             (make_field "balance" (make_type_for uint128_t) (Some 0)) in
  append_field src k false [x70]
  = Threw abieos_error [x70; x01; x02; x03; x04; x05; x06; x07; x08]
  /\ ~ (forall e d, append_field src k false [x70] = Threw e d -> d = [x70]).
Proof.
  cbv zeta. split; [reflexivity|].
  intros H. specialize (H _ _ eq_refl). discriminate H.
Qed.
